(** * editable-list: the <editable-list> web component

    A shallow embedding of [src/editable-list.js] and the properties of its
    list of items.

    What is modelled.  The component keeps its list in the shadow tree: the
    [<ul class="item-list">] holds one [<li>] per item, and the text of an
    item lives in the [<div class="item-wrapper">] of its [<li>].  The model
    keeps exactly that: the ordered children of the item list, the content
    of each wrapper (text, or the [<input>] that replaces it while the item
    is edited), the value of the add-new-item input, the element's
    attributes, the [_editing] flag, and two logs of what the component
    sends to its host: the details passed to [dispatchEvent] and the
    messages passed to [alert].

    Conventions.
    - A method of the class is a computation in the monad [M]: it runs on the
      element, it returns or throws, and the element it leaves is kept in
      both cases (a JavaScript throw rolls nothing back).
    - A private method [#_name] is called [_name].
    - An [<li>] is referred to by its position among the children of the
      item list.  Where the source keeps a reference across a move of the
      node, the position is followed explicitly.
    - Item values are text without markup, character references or
      carriage returns: assigning such a string to [innerHTML] stores it as
      it is, and [innerHTML] and [#_decodeHtml] read it back as it is.  The
      component is rendered, and [innerText] reads the text as it is shown:
      each run of spaces, tabs and line breaks shows as one space, and none
      shows at either end.
    - The edit input holds the focus from the moment [#_itemEdit] focuses it
      for as long as it is in the tree.  When the [<li>] that holds it is
      about to be taken out of its place (removed, or moved by
      [insertBefore]), when the item list is emptied, and when the add input
      is focused, the browser fires [blur] at it first, and its listener
      [#_itemEditFinished] runs inside that call, on the tree as it was.
      [#_itemEdit] and [changeItem] write to a wrapper only when [_editing]
      is not set, and the wrapper then holds text: an edit input is in the
      list only while [_editing] is set.
    - A gesture reaches the component as an event whose target lies in an
      [<li>] of the list; the event records the position of that [<li>].
    - A character is a code unit below 256.
    - The styling that the component writes and never reads back (toolbar
      visibility, the [defocused] class) is left out; the [selected] class
      is kept. *)

From Stdlib Require Import ZArith String Ascii.
From stdpp Require Import base list strings.

Local Open Scope string_scope.
Local Open Scope list_scope.

(** ** Strings as JavaScript uses them *)

Module Js.

(** White space and line terminators that [String.prototype.trim] strips:
    TAB, LF, VT, FF, CR, SP and NBSP. *)
Definition is_whitespace (c : ascii) : bool :=
  let n := nat_of_ascii c in
  ((9 <=? n)%nat && (n <=? 13)%nat) || (n =? 32)%nat || (n =? 160)%nat.

Fixpoint trimStart (s : string) : string :=
  match s with
  | EmptyString => EmptyString
  | String c s' => if is_whitespace c then trimStart s' else s
  end.

Fixpoint trimEnd (s : string) : string :=
  match s with
  | EmptyString => EmptyString
  | String c s' =>
      match trimEnd s' with
      | EmptyString => if is_whitespace c then EmptyString else String c EmptyString
      | t => String c t
      end
  end.

(** [s.trim()] *)
Definition trim (s : string) : string := trimEnd (trimStart s).

(** [s.includes(searchString)] *)
Fixpoint includes (s searchString : string) : bool :=
  String.prefix searchString s ||
  match s with
  | EmptyString => false
  | String _ s' => includes s' searchString
  end.

(** [s.startsWith(searchString)] *)
Definition startsWith (s searchString : string) : bool :=
  String.prefix searchString s.

(** A value stored in the detail of an event: a string or [null]. *)
Inductive value :=
| Null
| Str (s : string).

(** An object literal: its properties in the order they are written. *)
Definition object := list (string * value).

Definition keys (o : object) : list string := fst <$> o.

(** Errors a method can raise. *)
Inductive exn :=
| TypeError          (* a property of null or undefined was read *)
| NotSupportedError. (* attachShadow on a host that has a shadow root *)

End Js.

(** ** The element and its shadow tree *)

(** The content of a [<div class="item-wrapper">]. *)
Inductive ItemWrapper :=
| Text (text : string)                (* the item's text *)
| EditInput (value _value : string).  (* the edit input: what is typed, and
                                         the text the item had before *)

Record Li := mkLi {
  item_wrapper : ItemWrapper;
  selected : bool
}.

Record ShadowRoot := mkShadowRoot {
  item_list : list Li;                 (* children of ul.item-list *)
  add_new_list_item_input : string     (* value of the add-new-item input *)
}.

Record EditableList := mkEditableList {
  attributes : list (string * string); (* name and value, in document order *)
  shadowRoot : option ShadowRoot;      (* null until connectedCallback *)
  _editing : bool;
  dispatched : list Js.object;         (* details of the change events *)
  alerts : list string                 (* messages shown with alert *)
}.

(** A position among the children of the item list. *)
Abbreviation LiRef := nat (only parsing).

Inductive EventKind :=
| KeyboardEvent (key : string)
| OtherEvent.                          (* click, dblclick, blur, touchend *)

Record Event := mkEvent {
  kind : EventKind;
  target : LiRef                       (* the li that holds e.target *)
}.

Definition duplicatePromptDefault : string := "This value already exists!".

(** White space that rendering collapses: TAB, LF, CR and SP. *)
Definition is_collapsible (c : ascii) : bool :=
  let n := nat_of_ascii c in
  (n =? 9)%nat || (n =? 10)%nat || (n =? 13)%nat || (n =? 32)%nat.

(** The text as it is rendered from some point on: [owed] tells that a space
    is shown before the next visible character, [started] that a visible
    character came before. *)
Fixpoint rendered_from (owed started : bool) (s : string) : string :=
  match s with
  | EmptyString => EmptyString
  | String c s' =>
      if is_collapsible c then rendered_from started started s'
      else if owed then String " " (String c (rendered_from false true s'))
      else String c (rendered_from false true s')
  end.

(** The text a wrapper shows for the string it holds. *)
Definition rendered (s : string) : string := rendered_from false false s.

(** The string is read as text only: it holds no [<], no [&] and no carriage
    return, so that assigning it to [innerHTML] makes one text node that
    holds it. *)
Definition plain (s : string) : bool :=
  negb (Js.includes s "<") && negb (Js.includes s "&")
  && negb (Js.includes s (String "013" EmptyString)).

(** The value is shown as it is written: a wrapper that holds it shows it. *)
Definition shown_as_written (s : string) : Prop :=
  plain s = true /\ rendered s = s.

(** [wrapper.innerText]: the rendered text; an input renders none. *)
Definition innerText (w : ItemWrapper) : string :=
  match w with
  | Text s => rendered s
  | EditInput _ _ => EmptyString
  end.

Definition edit_input_html : string :=
  "<input class=" +:+ String "034" "edit-list-item-input" +:+ String "034" ">".

(** [wrapper.innerHTML] *)
Definition innerHTML (w : ItemWrapper) : string :=
  match w with
  | Text s => s
  | EditInput _ _ => edit_input_html
  end.

(** ** The monad of methods *)

Inductive Result (A : Type) :=
| Returned (a : A) (el : EditableList)
| Threw (e : Js.exn) (el : EditableList).
Arguments Returned {A} a el.
Arguments Threw {A} e el.

Definition M (A : Type) : Type := EditableList -> Result A.

#[global] Instance M_ret : MRet M := fun A a el => Returned a el.

#[global] Instance M_bind : MBind M := fun A B f m el =>
  match m el with
  | Returned a el' => f a el'
  | Threw e el' => Threw e el'
  end.

Definition throw {A} (e : Js.exn) : M A := fun el => Threw e el.

(** The element a computation leaves, whether it returned or threw. *)
Definition after {A} (r : Result A) : EditableList :=
  match r with
  | Returned _ el => el
  | Threw _ el => el
  end.

Definition returns {A} (r : Result A) : Prop :=
  match r with
  | Returned _ _ => True
  | Threw _ _ => False
  end.

(** [list.forEach(f)] *)
Fixpoint forEach {A} (f : A -> M unit) (l : list A) : M unit :=
  match l with
  | [] => mret tt
  | x :: l' => f x;; forEach f l'
  end.

(** *** Reading and writing the element *)

(** [this.shadowRoot.querySelector(...)]: reading through a null shadow root
    is a TypeError. *)
Definition theShadowRoot : M ShadowRoot := fun el =>
  match shadowRoot el with
  | Some sh => Returned sh el
  | None => Threw Js.TypeError el
  end.

Definition setShadowRoot (sh : ShadowRoot) : M unit := fun el =>
  Returned tt (mkEditableList (attributes el) (Some sh) (_editing el)
                              (dispatched el) (alerts el)).

Fixpoint lookup_attribute (name : string) (attrs : list (string * string))
  : option string :=
  match attrs with
  | [] => None
  | (n, v) :: attrs' => if String.eqb n name then Some v else lookup_attribute name attrs'
  end.

(** [this.getAttribute(name)]: null when the attribute is absent. *)
Definition getAttribute (name : string) : M (option string) := fun el =>
  Returned (lookup_attribute name (attributes el)) el.

Definition get_editing : M bool := fun el => Returned (_editing el) el.

Definition set_editing (b : bool) : M unit := fun el =>
  Returned tt (mkEditableList (attributes el) (shadowRoot el) b
                              (dispatched el) (alerts el)).

(** [alert(message)] *)
Definition alert (message : string) : M unit := fun el =>
  Returned tt (mkEditableList (attributes el) (shadowRoot el) (_editing el)
                              (dispatched el) (alerts el ++ [message])).

(** [this.dispatchEvent(event)] *)
Definition dispatchEvent (detail : Js.object) : M unit := fun el =>
  Returned tt (mkEditableList (attributes el) (shadowRoot el) (_editing el)
                              (dispatched el ++ [detail]) (alerts el)).

(** The children of the item list, and their replacement. *)
Definition children : M (list Li) :=
  sh ← theShadowRoot; mret (item_list sh).

Definition set_children (lis : list Li) : M unit :=
  sh ← theShadowRoot;
  setShadowRoot (mkShadowRoot lis (add_new_list_item_input sh)).

Definition set_add_input (v : string) : M unit :=
  sh ← theShadowRoot;
  setShadowRoot (mkShadowRoot (item_list sh) v).

(** [li.querySelector('.item-wrapper')] *)
Definition itemWrapperOf (li : LiRef) : M ItemWrapper :=
  lis ← children;
  match lis !! li with
  | Some l => mret (item_wrapper l)
  | None => throw Js.TypeError
  end.

Definition set_item_wrapper (w : ItemWrapper) (l : Li) : Li :=
  mkLi w (selected l).

(** [itemWrapper.innerHTML = ...] and [itemWrapper.appendChild(inp)] *)
Definition setItemWrapper (li : LiRef) (w : ItemWrapper) : M unit :=
  lis ← children;
  set_children (alter (set_item_wrapper w) li lis).

(** *** DOM list operations on positions *)

(** [li.previousElementSibling] *)
Definition previousElementSibling (li : LiRef) : option LiRef :=
  match li with
  | O => None
  | S p => Some p
  end.

(** [li.nextElementSibling] *)
Definition nextElementSibling (li : LiRef) : M (option LiRef) :=
  lis ← children;
  mret (if decide (S li < length lis) then Some (S li) else None).

(** [parent.insertBefore(node, ref)] for a [node] that is already a child:
    the node is taken out of its place and put back in front of [ref]. *)
Definition insertBefore (node ref : LiRef) (lis : list Li) : list Li :=
  match lis !! node with
  | Some x =>
      let rest := delete node lis in
      let ref' := if decide (node < ref) then pred ref else ref in
      take ref' rest ++ x :: drop ref' rest
  | None => lis
  end.

(** ** Private methods *)

(** [#_changeEvent(data)]: the event carries [data] as its detail. *)
Definition _changeEvent (data : Js.object) : Js.object := data.

(** [#_decodeHtml(html)], on text without markup or character references. *)
Definition _decodeHtml (html : string) : string := html.

(** [#_itemHTML(item)] inside a fresh [<li>]: the wrapper holds the item. *)
Definition _itemHTML (item : string) : Li := mkLi (Text item) false.

(** [(e instanceof KeyboardEvent && e.key === "Enter") ||
     !(e instanceof KeyboardEvent)] *)
Definition enterOrNotKeyboard (e : Event) : bool :=
  match kind e with
  | KeyboardEvent key => String.eqb key "Enter"
  | OtherEvent => true
  end.

(** [this.getAttribute('allow-duplicates') !== "false"] *)
Definition allowDuplicatesOf (a : option string) : bool :=
  match a with
  | Some v => negb (String.eqb v "false")
  | None => true
  end.

(** [this.getAttribute('duplicate-prompt') || EditableList.#_duplicatePromptDefault]:
    null and the empty string are falsy. *)
Definition duplicatePromptOf (a : option string) : string :=
  match a with
  | Some EmptyString => duplicatePromptDefault
  | Some v => v
  | None => duplicatePromptDefault
  end.

(** [#_initialItems()] *)
Definition _initialItems : M (list string) := fun el =>
  Returned
    (fold_left
       (fun items attr =>
          if Js.includes (fst attr) "list-item" then items ++ [snd attr] else items)
       (attributes el) [])
    el.

(** [#_updateToolbars()]: reads the buttons through the shadow root; the
    visibility it writes is not modelled. *)
Definition _updateToolbars : M unit :=
  _ ← theShadowRoot; mret tt.

(** [#_itemList()] *)
Definition _itemList : M (list Li) := children.

(** [#_getLi(element)]: climbs to the enclosing [<li>]; outside any [<li>]
    the climb reaches null. *)
Definition _getLi (element : LiRef) : M LiRef :=
  lis ← children;
  if decide (element < length lis) then mret element else throw Js.TypeError.

(** [#_getLiAtIndex(index)]: [children[index] || null]. *)
Definition _getLiAtIndex (index : Z) : M (option LiRef) :=
  lis ← _itemList;
  mret (if decide (0 ≤ index < Z.of_nat (length lis))%Z
        then Some (Z.to_nat index) else None).

(** The loop of [#_valueExists], [i] being the index of the first wrapper
    of [itemWrappers]. *)
Fixpoint valueExists_from (i : nat) (itemWrappers : list ItemWrapper)
    (newValue : string) (item : option LiRef) : bool :=
  match itemWrappers with
  | [] => false
  | w :: ws =>
      if negb (bool_decide (item = Some i)) && String.eqb (innerText w) newValue
      then true
      else valueExists_from (S i) ws newValue item
  end.

(** [#_valueExists(newValue, item)]; [item] is null or the wrapper of an li. *)
Definition _valueExists (newValue : string) (item : option LiRef) : M bool :=
  sh ← theShadowRoot;
  mret (valueExists_from 0 (item_wrapper <$> item_list sh) newValue item).

(** [#_cleanSelection()] *)
Definition _cleanSelection : M unit :=
  sh ← theShadowRoot;
  set_children ((fun l => mkLi (item_wrapper l) false) <$> item_list sh).

(** [#_liSelected(e)] *)
Definition _liSelected (e : Event) : M unit :=
  _cleanSelection;;
  li ← _getLi (target e);
  lis ← children;
  set_children (alter (fun l => mkLi (item_wrapper l) true) li lis).

(** The object [#_changeItem] returns. *)
Record ChangeResult := mkChangeResult {
  val : string;
  accepted : bool;
  differs : bool
}.

(** [#_changeItem(li, newValue, previousValue)].  When the wrapper holds the
    edit input, assigning [innerHTML] takes the input out of the tree; the
    [blur] this fires finds [_editing] false, and its listener returns at
    once. *)
Definition _changeItem (li : LiRef) (newValue previousValue : string)
  : M ChangeResult :=
  _ ← itemWrapperOf li;
  let val0 :=
    if String.eqb (Js.trim newValue) EmptyString then previousValue
    else newValue in
  a ← getAttribute "allow-duplicates";
  let allowDuplicates := allowDuplicatesOf a in
  exists_ ← (if negb allowDuplicates then _valueExists val0 (Some li)
             else mret false : M bool);
  let val1 := if (exists_ : bool) then previousValue else val0 in
  set_editing false;;
  setItemWrapper li (Text val1);;
  mret (mkChangeResult val1 (negb exists_) (negb (String.eqb val1 previousValue))).

(** [#_itemEditFinished(e)] *)
Definition _itemEditFinished (e : Event) : M unit :=
  editing ← get_editing;
  if negb editing then mret tt
  else if enterOrNotKeyboard e then
    li ← _getLi (target e);
    itemWrapper ← itemWrapperOf li;
    match itemWrapper with
    | Text _ => throw Js.TypeError
    | EditInput value previousValue =>
        result ← _changeItem li value previousValue;
        p ← getAttribute "duplicate-prompt";
        let duplicatePrompt := duplicatePromptOf p in
        (if negb (accepted result) && negb (String.eqb (Js.trim duplicatePrompt) EmptyString)
         then alert duplicatePrompt else mret tt);;
        if differs result
        then dispatchEvent
               (_changeEvent [("action", Js.Str "edit");
                              ("previous", Js.Str previousValue);
                              ("new", Js.Str (val result))])
        else mret tt
    end
  else mret tt.

(** *** The blur of the edit input *)

(** A listener called by the browser: what it throws is reported, and does
    not reach the code that made the browser fire the event. *)
Definition listener (m : M unit) : M unit := fun el =>
  Returned tt (after (m el)).

(** The browser is about to take [li] out of its place: when [li] holds the
    edit input, [blur] is fired at the input. *)
Definition blurWithin (li : LiRef) : M unit :=
  lis ← children;
  match item_wrapper <$> lis !! li with
  | Some (EditInput _ _) => listener (_itemEditFinished (mkEvent OtherEvent li))
  | _ => mret tt
  end.

(** The first li of [lis] that holds an edit input, [i] being the position
    of the first li of [lis]. *)
Fixpoint editInput_from (i : nat) (lis : list Li) : option LiRef :=
  match lis with
  | [] => None
  | l :: lis' =>
      match item_wrapper l with
      | EditInput _ _ => Some i
      | Text _ => editInput_from (S i) lis'
      end
  end.

(** The edit input loses the focus, wherever it is in the list. *)
Definition blurEditInput : M unit :=
  lis ← children;
  match editInput_from 0 lis with
  | Some li => listener (_itemEditFinished (mkEvent OtherEvent li))
  | None => mret tt
  end.

(** [#_removeListItem(li)] *)
Definition _removeListItem (li : LiRef) : M unit :=
  blurWithin li;;
  lis ← children;
  set_children (delete li lis);;
  _updateToolbars.

(** [#_moveUpListItem(li)]: [insertBefore] moves [li]. *)
Definition _moveUpListItem (li : LiRef) : M bool :=
  match previousElementSibling li with
  | None => mret false
  | Some prev =>
      blurWithin li;;
      lis ← children;
      set_children (insertBefore li prev lis);;
      _updateToolbars;;
      mret true
  end.

(** [#_moveDownListItem(li)]: [insertBefore] moves [next]. *)
Definition _moveDownListItem (li : LiRef) : M bool :=
  next ← nextElementSibling li;
  match next with
  | None => mret false
  | Some next =>
      blurWithin next;;
      lis ← children;
      set_children (insertBefore next li lis);;
      _updateToolbars;;
      mret true
  end.

(** ** Public methods *)

(** [items()] *)
Definition items : M (list string) :=
  sh ← theShadowRoot;
  mret ((fun el => _decodeHtml (innerHTML (item_wrapper el))) <$> item_list sh).

(** [addItems(listItems)] *)
Definition addItems (listItems : list string) : M unit :=
  a ← getAttribute "allow-duplicates";
  let allowDuplicates := allowDuplicatesOf a in
  forEach
    (fun listItem =>
       exists_ ← (if allowDuplicates then mret false
                  else _valueExists listItem None : M bool);
       if allowDuplicates || negb exists_
       then lis ← _itemList; set_children (lis ++ [_itemHTML listItem])
       else mret tt)
    listItems;;
  _updateToolbars.

(** [changeItem(index, newValue)] *)
Definition changeItem (index : Z) (newValue : string) : M unit :=
  li ← _getLiAtIndex index;
  match li with
  | None => mret tt
  | Some li =>
      editing ← get_editing;
      if (editing : bool) then mret tt
      else
        set_editing true;;
        itemWrapper ← itemWrapperOf li;
        _ ← _changeItem li newValue (innerText itemWrapper);
        mret tt
  end.

(** [removeItem(index)] *)
Definition removeItem (index : Z) : M unit :=
  li ← _getLiAtIndex index;
  match li with
  | None => mret tt
  | Some li => _removeListItem li
  end.

(** [moveItemUp(index)] *)
Definition moveItemUp (index : Z) : M unit :=
  li ← _getLiAtIndex index;
  match li with
  | None => mret tt
  | Some li => _ ← _moveUpListItem li; mret tt
  end.

(** [moveItemDown(index)] *)
Definition moveItemDown (index : Z) : M unit :=
  li ← _getLiAtIndex index;
  match li with
  | None => mret tt
  | Some li => _ ← _moveDownListItem li; mret tt
  end.

(** [removeAllItems()] *)
Definition removeAllItems : M unit :=
  _ ← _itemList;
  blurEditInput;;
  set_children [].

(** [unselectAllItems()] *)
Definition unselectAllItems : M unit := _cleanSelection.

(** ** Life cycle *)

(** [this.attachShadow({mode: 'open'})] *)
Definition attachShadow : M unit := fun el =>
  match shadowRoot el with
  | Some _ => Threw Js.NotSupportedError el
  | None => setShadowRoot (mkShadowRoot [] EmptyString) el
  end.

(** [#_init()]: one [<li>] per initial item. *)
Definition _init : M unit :=
  attachShadow;;
  listItems ← _initialItems;
  set_children (_itemHTML <$> listItems).

(** [connectedCallback()]; the listeners it installs are the handlers
    below. *)
Definition connectedCallback : M unit :=
  _init;;
  _updateToolbars.

(** ** Handlers of user gestures *)

(** [#_addListItem(e)] *)
Definition _addListItem (e : Event) : M unit :=
  if enterOrNotKeyboard e then
    textInput ← theShadowRoot;
    let value := add_new_list_item_input textInput in
    if negb (String.eqb (Js.trim value) EmptyString) then
      a ← getAttribute "allow-duplicates";
      let allowDuplicates := allowDuplicatesOf a in
      p ← getAttribute "duplicate-prompt";
      let duplicatePrompt := duplicatePromptOf p in
      exists_ ← (if negb allowDuplicates then _valueExists value None
                 else mret false : M bool);
      if (exists_ : bool) then
        (if negb (String.eqb (Js.trim duplicatePrompt) EmptyString)
         then alert duplicatePrompt
         else mret tt);;
        blurEditInput             (* textInput.focus() *)
      else
        addItems [value];;
        dispatchEvent
          (_changeEvent [("action", Js.Str "add"); ("previous", Js.Null);
                         ("new", Js.Str value)]);;
        lis ← _itemList;
        match lis with
        | [] => throw Js.TypeError
        | _ => _liSelected (mkEvent OtherEvent (pred (length lis)))
        end;;
        set_add_input EmptyString
    else mret tt
  else mret tt.

(** [#_itemEdit(e)]; the wrapper it empties holds text, and [inp.focus()]
    gives the new input the focus. *)
Definition _itemEdit (e : Event) : M unit :=
  editing ← get_editing;
  if (editing : bool) then mret tt
  else
    set_editing true;;
    li ← _getLi (target e);
    itemWrapper ← itemWrapperOf li;
    setItemWrapper li (EditInput (innerText itemWrapper) (innerText itemWrapper)).

(** [#_removeListItemHandler(e)] *)
Definition _removeListItemHandler (e : Event) : M unit :=
  li ← _getLi (target e);
  itemWrapper ← itemWrapperOf li;
  let val := _decodeHtml (innerHTML itemWrapper) in
  _removeListItem li;;
  dispatchEvent
    (_changeEvent [("action", Js.Str "remove"); ("previous", Js.Str val);
                   ("new", Js.Null)]).

(** [#_moveUpListItemEvent(e)]; after the move the li is one place up. *)
Definition _moveUpListItemEvent (e : Event) : M unit :=
  li ← _getLi (target e);
  moved ← _moveUpListItem li;
  if negb moved then mret tt
  else
    itemWrapper ← itemWrapperOf (pred li);
    let val := _decodeHtml (innerHTML itemWrapper) in
    dispatchEvent
      (_changeEvent [("action", Js.Str "move"); ("direction", Js.Str "up");
                     ("item", Js.Str val)]).

(** [#_moveDownListItemEvent(e)]; after the move the li is one place down. *)
Definition _moveDownListItemEvent (e : Event) : M unit :=
  li ← _getLi (target e);
  moved ← _moveDownListItem li;
  if negb moved then mret tt
  else
    itemWrapper ← itemWrapperOf (S li);
    let val := _decodeHtml (innerHTML itemWrapper) in
    dispatchEvent
      (_changeEvent [("action", Js.Str "move"); ("direction", Js.Str "down");
                     ("item", Js.Str val)]).

(** ** What the user does to the inputs *)

(** The user types [text] into the add-new-item input. *)
Definition typeNewItem (text : string) : M unit := set_add_input text.

(** The user types [text] into the edit input of [li]. *)
Definition typeEdit (li : LiRef) (text : string) : M unit :=
  itemWrapper ← itemWrapperOf li;
  match itemWrapper with
  | EditInput _ previousValue => setItemWrapper li (EditInput text previousValue)
  | Text _ => mret tt
  end.

(** ** Observations *)

(** The list of items as [items()] reports it; empty when [items()] throws. *)
Definition list_of (el : EditableList) : list string :=
  match items el with
  | Returned l _ => l
  | Threw _ _ => []
  end.

(** The wrappers of the list. *)
Definition wrappers_of (el : EditableList) : list ItemWrapper :=
  match shadowRoot el with
  | Some sh => item_wrapper <$> item_list sh
  | None => []
  end.

(** The element is connected: it has its shadow tree. *)
Definition connected (el : EditableList) : Prop := is_Some (shadowRoot el).

(** The wrapper holds text, not an edit input. *)
Definition is_text (w : ItemWrapper) : bool :=
  match w with
  | Text _ => true
  | EditInput _ _ => false
  end.

(** No item is being edited. *)
Definition at_rest (el : EditableList) : Prop :=
  _editing el = false ∧ Forall (fun w => is_text w = true) (wrappers_of el).

(** The allow-duplicates attribute is the string "false". *)
Definition duplicates_disallowed (el : EditableList) : Prop :=
  lookup_attribute "allow-duplicates" (attributes el) = Some "false".

(** The host page calls a public mutator. *)
Inductive Call :=
| AddItems (listItems : list string)
| ChangeItem (index : Z) (newValue : string)
| RemoveItem (index : Z)
| MoveItemUp (index : Z)
| MoveItemDown (index : Z)
| RemoveAllItems.

Definition call (c : Call) : M unit :=
  match c with
  | AddItems listItems => addItems listItems
  | ChangeItem index newValue => changeItem index newValue
  | RemoveItem index => removeItem index
  | MoveItemUp index => moveItemUp index
  | MoveItemDown index => moveItemDown index
  | RemoveAllItems => removeAllItems
  end.

(** The user makes a gesture that a listener of the component handles. *)
Inductive Gesture :=
| AddGesture (e : Event)            (* keypress in the add input, click on Add *)
| SelectGesture (e : Event)         (* click on an li *)
| EditGesture (e : Event)           (* dblclick or double tap on a wrapper *)
| EditFinishedGesture (e : Event)   (* keypress or blur on the edit input *)
| RemoveGesture (e : Event)         (* click on Remove *)
| MoveUpGesture (e : Event)         (* click on Move up *)
| MoveDownGesture (e : Event).      (* click on Move down *)

(** A click on Add passes the [.new-list-item] wrapper first, whose
    listener in the capture phase is [#_cleanSelection]; the listener of the
    button runs after it. *)
Definition handle (g : Gesture) : M unit :=
  match g with
  | AddGesture e =>
      match kind e with
      | KeyboardEvent _ => _addListItem e
      | OtherEvent => listener _cleanSelection;; _addListItem e
      end
  | SelectGesture e => _liSelected e
  | EditGesture e => _itemEdit e
  | EditFinishedGesture e => _itemEditFinished e
  | RemoveGesture e => _removeListItemHandler e
  | MoveUpGesture e => _moveUpListItemEvent e
  | MoveDownGesture e => _moveDownListItemEvent e
  end.

(** The two shapes of detail the source writes. *)
Definition change_fields : list string := ["action"; "previous"; "new"].
Definition move_fields : list string := ["action"; "direction"; "item"].

Definition fields_of (g : Gesture) : list string :=
  match g with
  | MoveUpGesture _ | MoveDownGesture _ => move_fields
  | _ => change_fields
  end.

(** ** Relations between the element before and after a method *)

(** [m] takes every element to an [R]-related one, returning or throwing. *)
Definition keeps (R : relation EditableList) {A} (m : M A) : Prop :=
  forall el, R el (after (m el)).

(** The method dispatched no event. *)
Definition same_events : relation EditableList :=
  fun el el' => dispatched el' = dispatched el.

(** The method dispatched only events whose detail satisfies [P]. *)
Definition events_such (P : Js.object -> Prop) : relation EditableList :=
  fun el el' =>
    exists new, dispatched el' = dispatched el ++ new /\ Forall P new.

(** ** Sample elements *)

(** [<editable-list list-item-1="red" list-item-2="green"
      allow-duplicates="false">], before and after it is connected. *)
Definition two_colors_markup : EditableList :=
  mkEditableList
    [("list-item-1", "red"); ("list-item-2", "green");
     ("allow-duplicates", "false")]
    None false [] [].

Definition two_colors : EditableList :=
  after (connectedCallback two_colors_markup).

(** ** The effect of the methods on the children of the item list *)

(** The children after the loop of [addItems]. *)
Definition appended (allowDuplicates : bool) (listItems : list string)
    (lis : list Li) : list Li :=
  fold_left
    (fun lis listItem =>
       if allowDuplicates
          || negb (valueExists_from 0 (item_wrapper <$> lis) listItem None)
       then lis ++ [_itemHTML listItem] else lis)
    listItems lis.

(** The value [#_changeItem] writes into the wrapper of [li]. *)
Definition written (allowDuplicates : bool) (lis : list Li) (li : LiRef)
    (newValue previousValue : string) : string :=
  let val0 :=
    if String.eqb (Js.trim newValue) EmptyString then previousValue
    else newValue in
  if negb allowDuplicates
     && valueExists_from 0 (item_wrapper <$> lis) val0 (Some li)
  then previousValue else val0.

(** The children after [changeItem(index, newValue)]. *)
Definition changed (allowDuplicates editing : bool) (index : Z)
    (newValue : string) (lis : list Li) : list Li :=
  if decide (0 ≤ index < Z.of_nat (length lis))%Z then
    if editing then lis
    else
      match lis !! Z.to_nat index with
      | Some l =>
          alter
            (set_item_wrapper
               (Text (written allowDuplicates lis (Z.to_nat index) newValue
                              (innerText (item_wrapper l)))))
            (Z.to_nat index) lis
      | None => lis
      end
  else lis.

(** What [items()] makes of one li. *)
Definition item_of (l : Li) : string := _decodeHtml (innerHTML (item_wrapper l)).

(** The alert a rejected duplicate raises: none when the prompt is blank. *)
Definition prompt_shown (attrs : list (string * string)) : list string :=
  let duplicatePrompt :=
    duplicatePromptOf (lookup_attribute "duplicate-prompt" attrs) in
  if String.eqb (Js.trim duplicatePrompt) EmptyString then []
  else [duplicatePrompt].

(** The children after a click on the last of them. *)
Definition lastSelected (lis : list Li) : list Li :=
  alter (fun l => mkLi (item_wrapper l) true) (pred (length lis))
        ((fun l => mkLi (item_wrapper l) false) <$> lis).

(** ** Rejecting a value with the prompt *)

(** The method leaves the list as it is and shows the duplicate prompt. *)
Definition rejects_with_prompt (m : M unit) (el : EditableList) : Prop :=
  list_of (after (m el)) = list_of el
  /\ alerts (after (m el))
     = alerts el
       ++ [duplicatePromptOf (lookup_attribute "duplicate-prompt" (attributes el))].

(** The user types [text] into the add input and clicks Add. *)
Definition addByClick (text : string) : M unit :=
  typeNewItem text;; handle (AddGesture (mkEvent OtherEvent 0)).

(** The text a wrapper shows. *)
Definition text_of (l : Li) : string := innerText (item_wrapper l).

(** The user edits the item of [e.target]: a double click, [text] typed into
    the input, then the event [e'] on the input. *)
Definition editPath (e : Event) (text : string) (e' : Event) : M unit :=
  _itemEdit e;; typeEdit (target e) text;; _itemEditFinished e'.

(** An edit input exists only while [_editing] is set. *)
Definition inputs_only_while_editing (el : EditableList) : Prop :=
  _editing el = false -> Forall (fun w => is_text w = true) (wrappers_of el).

(** The value kept when [newValue] is blank. *)
Definition unless_blank (newValue previousValue : string) : string :=
  if String.eqb (Js.trim newValue) EmptyString then previousValue else newValue.

(** [<editable-list list-item-1="red" my-list-item="x">] *)
Definition stray_markup : EditableList :=
  mkEditableList [("list-item-1", "red"); ("my-list-item", "x")] None false [] [].

(** [<editable-list list-item-1="red" allow-duplicates="False">], connected. *)
Definition capital_false : EditableList :=
  after (connectedCallback
           (mkEditableList [("list-item-1", "red"); ("allow-duplicates", "False")]
                           None false [] [])).

(** ** The elements a page can reach *)

(** What happens to a connected element: the page calls a method, the user
    makes a gesture, or the user types into one of the inputs. *)
Inductive Step :=
| Calls (c : Call)
| Makes (g : Gesture)
| TypesNew (text : string)
| TypesEdit (li : LiRef) (text : string)
| Unselects.

Definition step (s : Step) : M unit :=
  match s with
  | Calls c => call c
  | Makes g => handle g
  | TypesNew text => typeNewItem text
  | TypesEdit li text => typeEdit li text
  | Unselects => unselectAllItems
  end.

(** The elements reached from markup by connecting it and then stepping; a
    step that throws leaves the element it had reached. *)
Inductive reachable : EditableList -> Prop :=
| reachable_connected attrs :
    reachable (after (connectedCallback (mkEditableList attrs None false [] [])))
| reachable_step el s :
    reachable el -> reachable (after (step s el)).

(** The number of edit inputs among the wrappers. *)
Definition inputs (ws : list ItemWrapper) : nat :=
  length (List.filter (fun w => negb (is_text w)) ws).

(** At most one edit input, and none unless [_editing] is set. *)
Definition one_edit_at_most (el : EditableList) : Prop :=
  inputs (wrappers_of el) <= (if _editing el then 1 else 0).

(** A connected element, written out. *)
Local Abbreviation El attrs lis inp ed evs als :=
  (mkEditableList attrs (Some (mkShadowRoot lis inp)) ed evs als).


(** ** More of the component *)

(** The function [detectDoubleTap] that [#_attachDoubleTapHandler()]
    returns.  The handler closes over [lastTap], which starts at 0; here the
    value of [lastTap] is passed in, the value it is left with is returned,
    and [curTime] is what [new Date().getTime()] gives.  The timeout of the
    other branch only clears itself. *)
Definition detectDoubleTap (lastTap curTime : Z) (e : Event) : M Z :=
  let tapLen := (curTime - lastTap)%Z in
  (if decide (tapLen < 500 ∧ tapLen > 0)%Z then _itemEdit e else mret tt);;
  mret curTime.

(** Two taps on the same wrapper, the first one on a fresh handler. *)
Definition twoTaps (time1 time2 : Z) (e : Event) : M Z :=
  lastTap ← detectDoubleTap 0 time1 e;
  detectDoubleTap lastTap time2 e.

(** Which items carry the [selected] class. *)
Definition selected_of (el : EditableList) : list bool :=
  match shadowRoot el with
  | Some sh => selected <$> item_list sh
  | None => []
  end.

(** The value of the add-new-item input. *)
Definition add_input_of (el : EditableList) : string :=
  match shadowRoot el with
  | Some sh => add_new_list_item_input sh
  | None => EmptyString
  end.

(** The details the handlers write. *)
Definition addDetail (value : string) : Js.object :=
  [("action", Js.Str "add"); ("previous", Js.Null); ("new", Js.Str value)].

Definition editDetail (previousValue value : string) : Js.object :=
  [("action", Js.Str "edit"); ("previous", Js.Str previousValue);
   ("new", Js.Str value)].

Definition removeDetail (value : string) : Js.object :=
  [("action", Js.Str "remove"); ("previous", Js.Str value); ("new", Js.Null)].

Definition moveDetail (direction value : string) : Js.object :=
  [("action", Js.Str "move"); ("direction", Js.Str direction);
   ("item", Js.Str value)].

(** [_editing] is set although no wrapper holds an edit input. *)
Definition locked (el : EditableList) : Prop :=
  connected el
  /\ _editing el = true
  /\ Forall (fun w => is_text w = true) (wrappers_of el).

(** The page calls [addItems(listItems)] between the start of an edit and
    its end; the user types nothing. *)
Definition editInterrupted (e : Event) (listItems : list string) (e' : Event)
  : M unit :=
  _itemEdit e;; addItems listItems;; _itemEditFinished e'.

(** The loop of [#_updateToolbars()] over [len] items: for the item at [i]
    the visibility written to its Move up button and the one written to its
    Move down button. *)
Definition toolbarVisibility (len i : nat) : string * string :=
  (if i =? 0 then "hidden" else "visible",
   if i =? len - 1 then "hidden" else "visible")%nat.

Definition toolbarVisibilities (len : nat) : list (string * string) :=
  toolbarVisibility len <$> seq 0 len.

(** [two_colors] while the user edits red and has typed blue. *)
Definition two_colors_editing : EditableList :=
  after ((_itemEdit (mkEvent OtherEvent 0);; typeEdit 0 "blue") two_colors).

(** [two_colors] with [_editing] set and no edit input. *)
Definition two_colors_locked : EditableList :=
  mkEditableList (attributes two_colors) (shadowRoot two_colors) true [] [].

(** [two_colors] while the user edits green and has typed blue. *)
Definition green_editing : EditableList :=
  after ((_itemEdit (mkEvent OtherEvent 1);; typeEdit 1 "blue") two_colors).

(** [two_colors] after [addItems(["a "])]: the third item ends in a space. *)
Definition trailing_space : EditableList :=
  after (addItems ["a "] two_colors).

(** The detail is the one of an edit event. *)
Definition is_edit_detail (detail : Js.object) : Prop :=
  exists previousValue value, detail = editDetail previousValue value.

(** ** The edit that a blur commits *)

(** The typed value and the previous text of the edit that a [blur] fired at
    the input of [li] commits: [li] holds the edit input and [_editing] is
    set. *)
Definition pending (lis : list Li) (li : LiRef) (editing : bool)
  : option (string * string) :=
  match item_wrapper <$> lis !! li with
  | Some (EditInput value previousValue) =>
      if editing then Some (value, previousValue) else None
  | _ => None
  end.

(** The children, the [_editing] flag, the events and the alerts that the
    [blur] fired at the input of [li] leaves or adds. *)
Definition commit_lis (attrs : list (string * string)) (lis : list Li)
    (li : LiRef) (editing : bool) : list Li :=
  match pending lis li editing with
  | Some (value, previousValue) =>
      alter
        (set_item_wrapper
           (Text (written
                    (allowDuplicatesOf (lookup_attribute "allow-duplicates" attrs))
                    lis li value previousValue)))
        li lis
  | None => lis
  end.

Definition commit_editing (lis : list Li) (li : LiRef) (editing : bool) : bool :=
  match pending lis li editing with
  | Some _ => false
  | None => editing
  end.

Definition commit_events (attrs : list (string * string)) (lis : list Li)
    (li : LiRef) (editing : bool) : list Js.object :=
  match pending lis li editing with
  | Some (value, previousValue) =>
      let val :=
        written (allowDuplicatesOf (lookup_attribute "allow-duplicates" attrs))
                lis li value previousValue in
      if negb (String.eqb val previousValue)
      then [editDetail previousValue val] else []
  | None => []
  end.

Definition commit_alerts (attrs : list (string * string)) (lis : list Li)
    (li : LiRef) (editing : bool) : list string :=
  match pending lis li editing with
  | Some (value, previousValue) =>
      if negb (allowDuplicatesOf (lookup_attribute "allow-duplicates" attrs))
         && valueExists_from 0 (item_wrapper <$> lis)
              (unless_blank value previousValue) (Some li)
      then prompt_shown attrs else []
  | None => []
  end.

(** The li whose edit input holds the focus; the length of the list when no
    li holds one. *)
Definition edited (lis : list Li) : nat :=
  default (length lis) (editInput_from 0 lis).

(** The connected element after the [blur] fired at the input of [li],
    followed by the change [k] of the children. *)
Definition committed (attrs : list (string * string)) (lis : list Li)
    (inp : string) (editing : bool) (evs : list Js.object) (als : list string)
    (li : LiRef) (k : list Li -> list Li) : EditableList :=
  El attrs (k (commit_lis attrs lis li editing)) inp
     (commit_editing lis li editing)
     (evs ++ commit_events attrs lis li editing)
     (als ++ commit_alerts attrs lis li editing).
(** * Properties *)

Section Keeps.

Context (R : relation EditableList) `{!PreOrder R}.

Lemma keeps_ret {A} (a : A) : keeps R (mret a).
Proof. intros el. reflexivity. Qed.

Lemma keeps_throw {A} e : keeps R (@throw A e).
Proof. intros el. reflexivity. Qed.

Lemma keeps_bind {A B} (m : M A) (f : A -> M B) :
  keeps R m -> (forall a, keeps R (f a)) -> keeps R (m ≫= f).
Proof.
  intros Hm Hf el. specialize (Hm el). unfold mbind, M_bind.
  destruct (m el) as [a el'|e el']; simpl in *; [|exact Hm].
  etransitivity; [exact Hm|apply Hf].
Qed.

Lemma keeps_forEach {A} (f : A -> M unit) l :
  (forall x, keeps R (f x)) -> keeps R (forEach f l).
Proof.
  intros Hf. induction l as [|x l IH]; simpl.
  - apply keeps_ret.
  - apply keeps_bind; auto.
Qed.

Lemma keeps_listener (m : M unit) : keeps R m -> keeps R (listener m).
Proof. intros Hm el. exact (Hm el). Qed.

End Keeps.

#[global] Instance same_events_preorder : PreOrder same_events.
Proof.
  split.
  - intros el. reflexivity.
  - intros a b c Hab Hbc. unfold same_events in *. congruence.
Qed.

#[global] Instance events_such_preorder P : PreOrder (events_such P).
Proof.
  split.
  - intros el. exists []. split; [by rewrite app_nil_r | constructor].
  - intros a b c (n1 & H1 & F1) (n2 & H2 & F2). exists (n1 ++ n2). split.
    + rewrite H2, H1. by rewrite app_assoc.
    + by apply Forall_app.
Qed.

Create HintDb keeps discriminated.

Ltac keeps_step :=
  lazymatch goal with
  | |- keeps _ (mbind _ _) =>
      apply keeps_bind; try (solve [tc_solve]); [| intros ?]
  | |- keeps _ (mret _) => apply keeps_ret; tc_solve
  | |- keeps _ (throw _) => apply keeps_throw; tc_solve
  | |- keeps _ (forEach _ _) =>
      apply keeps_forEach; try (solve [tc_solve]); intros ?
  | |- keeps _ (listener _) => apply keeps_listener
  | |- keeps _ (if ?b then _ else _) => destruct b
  | |- keeps _ (match ?x with _ => _ end) => destruct x
  end.

Ltac keeps_auto := repeat (first [ solve [auto with keeps] | keeps_step ]).

(** Whatever does not call [dispatchEvent] keeps any relation that only
    looks at the dispatched events. *)
Section Frame.

Context (R : relation EditableList) `{!PreOrder R}.
Hypothesis R_frame : forall el el', dispatched el' = dispatched el -> R el el'.

Lemma keeps_theShadowRoot : keeps R theShadowRoot.
Proof. intros el. unfold theShadowRoot. destruct (shadowRoot el); reflexivity. Qed.

Lemma keeps_setShadowRoot sh : keeps R (setShadowRoot sh).
Proof. intros el. by apply R_frame. Qed.

Lemma keeps_getAttribute name : keeps R (getAttribute name).
Proof. intros el. reflexivity. Qed.

Lemma keeps_get_editing : keeps R get_editing.
Proof. intros el. reflexivity. Qed.

Lemma keeps_set_editing b : keeps R (set_editing b).
Proof. intros el. by apply R_frame. Qed.

Lemma keeps_alert message : keeps R (alert message).
Proof. intros el. by apply R_frame. Qed.

Lemma keeps_attachShadow : keeps R attachShadow.
Proof.
  intros el. unfold attachShadow. destruct (shadowRoot el); [reflexivity|].
  by apply R_frame.
Qed.

Lemma keeps__initialItems : keeps R _initialItems.
Proof. intros el. reflexivity. Qed.

Hint Resolve keeps_theShadowRoot keeps_setShadowRoot keeps_getAttribute
  keeps_get_editing keeps_set_editing keeps_alert keeps_attachShadow
  keeps__initialItems : keeps.

Lemma keeps_children : keeps R children.
Proof. unfold children. keeps_auto. Qed.

Lemma keeps_set_children lis : keeps R (set_children lis).
Proof. unfold set_children. keeps_auto. Qed.

Lemma keeps_set_add_input v : keeps R (set_add_input v).
Proof. unfold set_add_input. keeps_auto. Qed.

Hint Resolve keeps_children keeps_set_children keeps_set_add_input : keeps.

Lemma keeps_itemWrapperOf li : keeps R (itemWrapperOf li).
Proof. unfold itemWrapperOf. keeps_auto. Qed.

Lemma keeps_setItemWrapper li w : keeps R (setItemWrapper li w).
Proof. unfold setItemWrapper. keeps_auto. Qed.

Lemma keeps__updateToolbars : keeps R _updateToolbars.
Proof. unfold _updateToolbars. keeps_auto. Qed.

Lemma keeps__getLi element : keeps R (_getLi element).
Proof. unfold _getLi. keeps_auto. Qed.

Lemma keeps__getLiAtIndex index : keeps R (_getLiAtIndex index).
Proof. unfold _getLiAtIndex, _itemList. keeps_auto. Qed.

Lemma keeps__valueExists newValue item : keeps R (_valueExists newValue item).
Proof. unfold _valueExists. keeps_auto. Qed.

Lemma keeps_nextElementSibling li : keeps R (nextElementSibling li).
Proof. unfold nextElementSibling. keeps_auto. Qed.

Hint Resolve keeps_itemWrapperOf keeps_setItemWrapper keeps__updateToolbars
  keeps__getLi keeps__getLiAtIndex keeps__valueExists
  keeps_nextElementSibling : keeps.

Lemma keeps__cleanSelection : keeps R _cleanSelection.
Proof. unfold _cleanSelection. keeps_auto. Qed.

Hint Resolve keeps__cleanSelection : keeps.

Lemma keeps__liSelected e : keeps R (_liSelected e).
Proof. unfold _liSelected. keeps_auto. Qed.

Lemma keeps__changeItem li newValue previousValue :
  keeps R (_changeItem li newValue previousValue).
Proof. unfold _changeItem. keeps_auto. Qed.

Hint Resolve keeps__liSelected keeps__changeItem : keeps.

Lemma keeps_addItems listItems : keeps R (addItems listItems).
Proof. unfold addItems, _itemList. keeps_auto. Qed.

Lemma keeps_changeItem index newValue : keeps R (changeItem index newValue).
Proof. unfold changeItem. keeps_auto. Qed.

Lemma keeps__itemEdit e : keeps R (_itemEdit e).
Proof. unfold _itemEdit. keeps_auto. Qed.

End Frame.

Lemma same_events_frame el el' :
  dispatched el' = dispatched el -> same_events el el'.
Proof. auto. Qed.

Lemma events_such_frame P el el' :
  dispatched el' = dispatched el -> events_such P el el'.
Proof.
  intros H. exists []. split; [by rewrite app_nil_r | constructor].
Qed.

Lemma keeps_dispatchEvent (P : Js.object -> Prop) detail :
  P detail -> keeps (events_such P) (dispatchEvent detail).
Proof.
  intros H el. exists [detail]. split; [reflexivity|].
  constructor; [exact H | constructor].
Qed.

#[global] Hint Resolve same_events_preorder events_such_preorder
  same_events_frame events_such_frame : keeps.

#[global] Hint Resolve keeps_theShadowRoot keeps_setShadowRoot
  keeps_getAttribute keeps_get_editing keeps_set_editing keeps_alert
  keeps_children keeps_set_children keeps_set_add_input keeps_itemWrapperOf
  keeps_setItemWrapper keeps__updateToolbars keeps__getLi keeps__getLiAtIndex
  keeps__valueExists keeps_nextElementSibling keeps__cleanSelection
  keeps__liSelected keeps__changeItem keeps_addItems keeps_changeItem
  keeps__itemEdit : keeps.

Ltac keeps_events :=
  repeat (first [ solve [auto 6 with keeps]
                | solve [apply keeps_dispatchEvent; auto]
                | keeps_step ]).

(** The events of the methods that can make the edit input lose the focus:
    besides their own, the edit event of the edit that the blur commits. *)
Section Events.

Context (P : Js.object -> Prop).
Hypothesis P_edit : forall previousValue value, P (editDetail previousValue value).

Lemma _itemEditFinished_events e : keeps (events_such P) (_itemEditFinished e).
Proof.
  unfold _itemEditFinished. keeps_events.
  apply keeps_dispatchEvent, P_edit.
Qed.

Hint Resolve _itemEditFinished_events : keeps.

Lemma blurWithin_events li : keeps (events_such P) (blurWithin li).
Proof. unfold blurWithin. keeps_events. Qed.

Lemma blurEditInput_events : keeps (events_such P) blurEditInput.
Proof. unfold blurEditInput. keeps_events. Qed.

Hint Resolve blurWithin_events blurEditInput_events : keeps.

Lemma _removeListItem_events li : keeps (events_such P) (_removeListItem li).
Proof. unfold _removeListItem. keeps_events. Qed.

Lemma _moveUpListItem_events li : keeps (events_such P) (_moveUpListItem li).
Proof. unfold _moveUpListItem. keeps_events. Qed.

Lemma _moveDownListItem_events li : keeps (events_such P) (_moveDownListItem li).
Proof. unfold _moveDownListItem. keeps_events. Qed.

Hint Resolve _removeListItem_events _moveUpListItem_events
  _moveDownListItem_events : keeps.

Lemma call_events c : keeps (events_such P) (call c).
Proof.
  destruct c; simpl;
    unfold removeItem, moveItemUp, moveItemDown, removeAllItems, _itemList;
    keeps_events.
Qed.

Lemma _addListItem_events e :
  (forall value, P (addDetail value)) -> keeps (events_such P) (_addListItem e).
Proof.
  intros HP. unfold _addListItem, _itemList. keeps_events.
  all: apply keeps_dispatchEvent, HP.
Qed.

Lemma _removeListItemHandler_events e :
  (forall value, P (removeDetail value)) ->
  keeps (events_such P) (_removeListItemHandler e).
Proof.
  intros HP. unfold _removeListItemHandler. keeps_events.
  all: apply keeps_dispatchEvent, HP.
Qed.

Lemma _moveUpListItemEvent_events e :
  (forall direction value, P (moveDetail direction value)) ->
  keeps (events_such P) (_moveUpListItemEvent e).
Proof.
  intros HP. unfold _moveUpListItemEvent. keeps_events.
  all: apply keeps_dispatchEvent, HP.
Qed.

Lemma _moveDownListItemEvent_events e :
  (forall direction value, P (moveDetail direction value)) ->
  keeps (events_such P) (_moveDownListItemEvent e).
Proof.
  intros HP. unfold _moveDownListItemEvent. keeps_events.
  all: apply keeps_dispatchEvent, HP.
Qed.

End Events.

(** ** The rendered text *)

Lemma rendered_from_again s :
  forall owed,
    rendered_from false true (rendered_from owed true s)
    = rendered_from owed true s.
Proof.
  induction s as [|c s IH]; intros owed; [reflexivity|]. simpl.
  destruct (is_collapsible c) eqn:Ec; [apply IH|].
  destruct owed; simpl; rewrite Ec; by rewrite IH.
Qed.

(** Rendering a rendered text changes nothing. *)
Lemma rendered_idempotent s : rendered (rendered s) = rendered s.
Proof.
  unfold rendered. induction s as [|c s IH]; [reflexivity|]. simpl.
  destruct (is_collapsible c) eqn:Ec; [exact IH|].
  simpl. rewrite Ec. by rewrite rendered_from_again.
Qed.

Lemma innerText_shown w : innerText (Text (innerText w)) = innerText w.
Proof. destruct w; simpl; [apply rendered_idempotent | reflexivity]. Qed.

(** ** Running the methods on a connected element *)

Ltac run :=
  cbv [mbind mret M_bind M_ret throw children set_children set_add_input
       theShadowRoot setShadowRoot getAttribute get_editing set_editing
       alert dispatchEvent itemWrapperOf setItemWrapper _itemList
       _updateToolbars _getLi _getLiAtIndex _valueExists nextElementSibling
       previousElementSibling items after list_of wrappers_of returns
       listener shadowRoot attributes _editing dispatched alerts item_list
       add_new_list_item_input].

Lemma connected_inv el :
  connected el ->
  exists attrs lis inp ed evs als, el = El attrs lis inp ed evs als.
Proof.
  destruct el as [attrs [[lis inp]|] ed evs als]; intros [sh Hsh];
    [| discriminate]. by exists attrs, lis, inp, ed, evs, als.
Qed.

Lemma list_of_El attrs lis inp ed evs als :
  list_of (El attrs lis inp ed evs als) = item_of <$> lis.
Proof. reflexivity. Qed.

Lemma wrappers_of_El attrs lis inp ed evs als :
  wrappers_of (El attrs lis inp ed evs als) = item_wrapper <$> lis.
Proof. reflexivity. Qed.

Lemma addItems_loop_run attrs inp ed evs als allowDuplicates listItems :
  forall lis,
    forEach
      (fun listItem =>
         exists_ ← (if allowDuplicates then mret false
                    else _valueExists listItem None : M bool);
         if allowDuplicates || negb exists_
         then lis ← _itemList; set_children (lis ++ [_itemHTML listItem])
         else mret tt)
      listItems (El attrs lis inp ed evs als) =
    Returned tt
      (El attrs (appended allowDuplicates listItems lis) inp ed evs als).
Proof.
  induction listItems as [|x l IH]; intros lis; [reflexivity|].
  simpl forEach. unfold appended. simpl fold_left.
  fold (appended allowDuplicates l).
  unfold mbind at 1, M_bind at 1.
  destruct allowDuplicates.
  - run. simpl. apply (IH (lis ++ [_itemHTML x])).
  - run. simpl.
    destruct (valueExists_from 0 (item_wrapper <$> lis) x None); simpl.
    + apply (IH lis).
    + apply (IH (lis ++ [_itemHTML x])).
Qed.

Lemma addItems_run attrs lis inp ed evs als listItems :
  addItems listItems (El attrs lis inp ed evs als) =
  Returned tt
    (El attrs
        (appended (allowDuplicatesOf (lookup_attribute "allow-duplicates" attrs))
                  listItems lis)
        inp ed evs als).
Proof.
  unfold addItems.
  unfold mbind at 1, M_bind at 1, getAttribute at 1. simpl.
  unfold mbind at 1, M_bind at 1. rewrite addItems_loop_run. reflexivity.
Qed.

Lemma _changeItem_run attrs lis inp ed evs als li newValue previousValue :
  is_Some (lis !! li) ->
  _changeItem li newValue previousValue (El attrs lis inp ed evs als) =
  let allowDuplicates :=
    allowDuplicatesOf (lookup_attribute "allow-duplicates" attrs) in
  let val := written allowDuplicates lis li newValue previousValue in
  Returned
    (mkChangeResult val
       (negb (negb allowDuplicates
              && valueExists_from 0 (item_wrapper <$> lis)
                   (if String.eqb (Js.trim newValue) EmptyString then previousValue
                    else newValue) (Some li)))
       (negb (String.eqb val previousValue)))
    (El attrs (alter (set_item_wrapper (Text val)) li lis) inp false evs als).
Proof.
  intros [l Hl]. unfold _changeItem, written. run. rewrite Hl. simpl.
  destruct (allowDuplicatesOf (lookup_attribute "allow-duplicates" attrs));
    simpl; [reflexivity|].
  destruct (valueExists_from _ _ _ _); reflexivity.
Qed.

Lemma changeItem_run attrs lis inp ed evs als index newValue :
  changeItem index newValue (El attrs lis inp ed evs als) =
  Returned tt
    (El attrs
        (changed (allowDuplicatesOf (lookup_attribute "allow-duplicates" attrs))
                 ed index newValue lis)
        inp ed evs als).
Proof.
  unfold changeItem, changed.
  unfold mbind at 1, M_bind at 1. run. case_decide as Hi; [| reflexivity].
  destruct ed; [reflexivity|].
  destruct (lis !! Z.to_nat index) as [l|] eqn:Hl.
  - pose proof (_changeItem_run attrs lis inp true evs als (Z.to_nat index)
                  newValue (innerText (item_wrapper l))) as H.
    rewrite H by eauto. reflexivity.
  - apply lookup_ge_None in Hl. lia.
Qed.

(** ** Running the edit handlers *)

Lemma _itemEdit_run attrs lis inp evs als e l :
  lis !! target e = Some l ->
  _itemEdit e (El attrs lis inp false evs als) =
  Returned tt
    (El attrs
        (alter (set_item_wrapper
                  (EditInput (innerText (item_wrapper l))
                             (innerText (item_wrapper l))))
               (target e) lis)
        inp true evs als).
Proof.
  intros Hl. unfold _itemEdit. run.
  rewrite decide_True by (by apply lookup_lt_Some in Hl).
  rewrite Hl. reflexivity.
Qed.

Lemma typeEdit_run attrs lis inp ed evs als li l text value previousValue :
  lis !! li = Some l ->
  item_wrapper l = EditInput value previousValue ->
  typeEdit li text (El attrs lis inp ed evs als) =
  Returned tt
    (El attrs (alter (set_item_wrapper (EditInput text previousValue)) li lis)
        inp ed evs als).
Proof.
  intros Hl Hw. unfold typeEdit. run. rewrite Hl, Hw. reflexivity.
Qed.

Lemma _itemEditFinished_run attrs lis inp evs als e l value previousValue :
  enterOrNotKeyboard e = true ->
  lis !! target e = Some l ->
  item_wrapper l = EditInput value previousValue ->
  _itemEditFinished e (El attrs lis inp true evs als) =
  let allowDuplicates :=
    allowDuplicatesOf (lookup_attribute "allow-duplicates" attrs) in
  let val := written allowDuplicates lis (target e) value previousValue in
  let rejected :=
    negb allowDuplicates
    && valueExists_from 0 (item_wrapper <$> lis)
         (if String.eqb (Js.trim value) EmptyString then previousValue else value)
         (Some (target e)) in
  Returned tt
    (El attrs (alter (set_item_wrapper (Text val)) (target e) lis) inp false
        (evs ++ (if negb (String.eqb val previousValue)
                 then [[("action", Js.Str "edit");
                        ("previous", Js.Str previousValue);
                        ("new", Js.Str val)]]
                 else []))
        (als ++ (if rejected then prompt_shown attrs else []))).
Proof.
  intros He Hl Hw. unfold _itemEditFinished.
  unfold mbind at 1, M_bind at 1, get_editing at 1. simpl. rewrite He.
  unfold mbind at 1, M_bind at 1, _getLi at 1. run.
  rewrite decide_True by (by apply lookup_lt_Some in Hl).
  rewrite Hl, Hw.
  pose proof (_changeItem_run attrs lis inp true evs als (target e) value
                previousValue) as H.
  revert H. run. intros ->; [| eauto]. simpl.
  unfold prompt_shown.
  generalize (written (allowDuplicatesOf (lookup_attribute "allow-duplicates" attrs))
                      lis (target e) value previousValue).
  intros val.
  destruct (negb (allowDuplicatesOf _) && valueExists_from _ _ _ _);
    destruct (String.eqb (Js.trim (duplicatePromptOf _)) EmptyString);
    destruct (String.eqb val previousValue); simpl;
    rewrite ?app_nil_r; reflexivity.
Qed.

(** ** The blur of the edit input *)

Lemma pending_None_text lis li ed :
  Forall (fun w => is_text w = true) (item_wrapper <$> lis) ->
  pending lis li ed = None.
Proof.
  intros H. unfold pending. destruct (lis !! li) as [l|] eqn:Hl; [| done].
  rewrite Forall_fmap in H. pose proof (Forall_lookup_1 _ _ _ _ H Hl) as Hx.
  simpl in *. by destruct (item_wrapper l).
Qed.

Lemma pending_None_here lis li ed t :
  item_wrapper <$> lis !! li = Some (Text t) -> pending lis li ed = None.
Proof. intros H. unfold pending. by rewrite H. Qed.

Lemma committed_rest attrs lis inp ed evs als li k :
  pending lis li ed = None ->
  committed attrs lis inp ed evs als li k = El attrs (k lis) inp ed evs als.
Proof.
  intros H.
  unfold committed, commit_lis, commit_editing, commit_events, commit_alerts.
  rewrite H. by rewrite !app_nil_r.
Qed.

Lemma blurWithin_run attrs lis inp ed evs als li :
  blurWithin li (El attrs lis inp ed evs als) =
  Returned tt (committed attrs lis inp ed evs als li id).
Proof.
  unfold blurWithin, committed, commit_lis, commit_editing, commit_events,
    commit_alerts, pending.
  unfold mbind at 1, M_bind at 1, children at 1. run.
  destruct (lis !! li) as [l|] eqn:Hl; simpl; [| by rewrite !app_nil_r].
  destruct (item_wrapper l) as [t|value previousValue] eqn:Hw;
    [by rewrite !app_nil_r|].
  destruct ed.
  - rewrite (_itemEditFinished_run _ _ _ _ _ (mkEvent OtherEvent li) l value
               previousValue eq_refl Hl Hw).
    reflexivity.
  - simpl. by rewrite !app_nil_r.
Qed.

Lemma editInput_from_Some i lis li :
  editInput_from i lis = Some li ->
  exists value previousValue,
    i <= li
    /\ item_wrapper <$> lis !! (li - i) = Some (EditInput value previousValue).
Proof.
  revert i. induction lis as [|l lis IH]; intros i; simpl; [discriminate|].
  destruct (item_wrapper l) as [t|value previousValue] eqn:Hw.
  - intros H. destruct (IH _ H) as (v & pv & Hle & Hl). exists v, pv.
    split; [lia|]. replace (li - i) with (S (li - S i)) by lia. exact Hl.
  - intros [= <-]. exists value, previousValue. split; [lia|].
    rewrite Nat.sub_diag. simpl. by rewrite Hw.
Qed.

Lemma editInput_from_None i lis :
  editInput_from i lis = None <->
  Forall (fun w => is_text w = true) (item_wrapper <$> lis).
Proof.
  revert i. induction lis as [|l lis IH]; intros i; simpl.
  - split; [constructor | done].
  - destruct (item_wrapper l) as [t|value previousValue] eqn:Hw.
    + rewrite IH. split; [by constructor | by inversion 1].
    + split; [discriminate | by inversion 1].
Qed.

Lemma blurEditInput_run attrs lis inp ed evs als :
  blurEditInput (El attrs lis inp ed evs als) =
  Returned tt (committed attrs lis inp ed evs als (edited lis) id).
Proof.
  assert (blurEditInput (El attrs lis inp ed evs als)
          = blurWithin (edited lis) (El attrs lis inp ed evs als)) as ->;
    [| apply blurWithin_run].
  unfold blurEditInput, blurWithin, edited. run.
  destruct (editInput_from 0 lis) as [li|] eqn:E; simpl.
  - apply editInput_from_Some in E as (v & pv & _ & E).
    rewrite Nat.sub_0_r in E. by rewrite E.
  - by rewrite lookup_ge_None_2.
Qed.

Lemma commit_lis_delete attrs lis li ed :
  delete li (commit_lis attrs lis li ed) = delete li lis.
Proof.
  unfold commit_lis. destruct (pending lis li ed) as [[v pv]|]; [| done].
  rewrite !delete_take_drop, take_alter_ge, drop_alter_lt by lia. done.
Qed.

Lemma length_commit_lis attrs lis li ed :
  length (commit_lis attrs lis li ed) = length lis.
Proof.
  unfold commit_lis. destruct (pending lis li ed) as [[v pv]|]; [| done].
  apply length_alter.
Qed.

Lemma commit_lis_ne attrs lis li ed j :
  j ≠ li -> commit_lis attrs lis li ed !! j = lis !! j.
Proof.
  intros H. unfold commit_lis. destruct (pending lis li ed) as [[v pv]|]; [| done].
  by rewrite list_lookup_alter_ne.
Qed.

Lemma _removeListItem_run attrs lis inp ed evs als li :
  _removeListItem li (El attrs lis inp ed evs als) =
  Returned tt (committed attrs lis inp ed evs als li (delete li)).
Proof.
  unfold _removeListItem. unfold mbind at 1, M_bind at 1.
  rewrite blurWithin_run. reflexivity.
Qed.

Lemma _moveUpListItem_run attrs lis inp ed evs als li :
  _moveUpListItem li (El attrs lis inp ed evs als) =
  match li with
  | O => Returned false (El attrs lis inp ed evs als)
  | S prev =>
      Returned true
        (committed attrs lis inp ed evs als li (insertBefore li prev))
  end.
Proof.
  unfold _moveUpListItem. destruct li as [|prev]; [reflexivity|].
  cbn [previousElementSibling]. unfold mbind at 1, M_bind at 1.
  rewrite blurWithin_run. reflexivity.
Qed.

Lemma _moveDownListItem_run attrs lis inp ed evs als li :
  _moveDownListItem li (El attrs lis inp ed evs als) =
  if decide (S li < length lis)
  then Returned true
         (committed attrs lis inp ed evs als (S li) (insertBefore (S li) li))
  else Returned false (El attrs lis inp ed evs als).
Proof.
  unfold _moveDownListItem.
  unfold mbind at 1, M_bind at 1, nextElementSibling at 1. run.
  case_decide; [| reflexivity].
  pose proof (blurWithin_run attrs lis inp ed evs als (S li)) as Hb.
  revert Hb. unfold blurWithin. run. intros ->. reflexivity.
Qed.

Lemma removeItem_run attrs lis inp ed evs als index :
  removeItem index (El attrs lis inp ed evs als) =
  Returned tt
    (if decide (0 ≤ index < Z.of_nat (length lis))%Z
     then committed attrs lis inp ed evs als (Z.to_nat index)
            (delete (Z.to_nat index))
     else El attrs lis inp ed evs als).
Proof.
  unfold removeItem. unfold mbind at 1, M_bind at 1, _getLiAtIndex at 1. run.
  case_decide; [| reflexivity]. apply _removeListItem_run.
Qed.

Lemma moveItemUp_run attrs lis inp ed evs als index :
  moveItemUp index (El attrs lis inp ed evs als) =
  Returned tt
    (if decide (0 ≤ index < Z.of_nat (length lis))%Z then
       match Z.to_nat index with
       | O => El attrs lis inp ed evs als
       | S prev =>
           committed attrs lis inp ed evs als (S prev)
             (insertBefore (S prev) prev)
       end
     else El attrs lis inp ed evs als).
Proof.
  unfold moveItemUp. unfold mbind at 1, M_bind at 1, _getLiAtIndex at 1. run.
  case_decide; [| reflexivity].
  unfold mbind, M_bind. rewrite _moveUpListItem_run.
  by destruct (Z.to_nat index).
Qed.

Lemma moveItemDown_run attrs lis inp ed evs als index :
  moveItemDown index (El attrs lis inp ed evs als) =
  Returned tt
    (if decide (0 ≤ index < Z.of_nat (length lis))%Z then
       if decide (S (Z.to_nat index) < length lis)
       then committed attrs lis inp ed evs als (S (Z.to_nat index))
              (insertBefore (S (Z.to_nat index)) (Z.to_nat index))
       else El attrs lis inp ed evs als
     else El attrs lis inp ed evs als).
Proof.
  unfold moveItemDown. unfold mbind at 1, M_bind at 1, _getLiAtIndex at 1. run.
  case_decide; [| reflexivity].
  unfold mbind, M_bind. rewrite _moveDownListItem_run.
  by case_decide.
Qed.

Lemma removeAllItems_run attrs lis inp ed evs als :
  removeAllItems (El attrs lis inp ed evs als) =
  Returned tt (committed attrs lis inp ed evs als (edited lis) (fun _ => [])).
Proof.
  unfold removeAllItems. unfold mbind at 1, M_bind at 1, _itemList at 1. run.
  pose proof (blurEditInput_run attrs lis inp ed evs als) as H.
  revert H. unfold mbind, M_bind. run. intros ->. reflexivity.
Qed.

(** ** Moving a node in front of its neighbour *)

Lemma insertBefore_cons x lis prev :
  insertBefore (S (S prev)) (S prev) (x :: lis)
  = x :: insertBefore (S prev) prev lis.
Proof.
  unfold insertBefore. simpl.
  destruct (lis !! S prev); [| reflexivity].
  repeat case_decide; try lia. reflexivity.
Qed.

Lemma insertBefore_swap lis prev :
  S prev < length lis ->
  exists front a b back,
    lis = front ++ a :: b :: back /\ length front = prev
    /\ insertBefore (S prev) prev lis = front ++ b :: a :: back.
Proof.
  revert lis. induction prev as [|prev IH]; intros lis Hlen.
  - destruct lis as [|a [|b back]]; simpl in Hlen; try lia.
    by exists [], a, b, back.
  - destruct lis as [|x lis]; simpl in Hlen; [lia|].
    destruct (IH lis) as (front & a & b & back & -> & Hf & Hs); [lia|].
    exists (x :: front), a, b, back. rewrite insertBefore_cons, Hs.
    simpl. auto.
Qed.

(** Two lists that differ by the exchange of the neighbours at [i], [S i]. *)
Lemma swap_lookup {A} (front back : list A) a b i :
  length front = i ->
  let l := front ++ a :: b :: back in
  let l' := front ++ b :: a :: back in
  length l' = length l
  /\ l' !! i = l !! S i
  /\ l' !! S i = l !! i
  /\ forall j, j ≠ i -> j ≠ S i -> l' !! j = l !! j.
Proof.
  intros <-. simpl. repeat split.
  - by rewrite !length_app.
  - rewrite !lookup_app_r by lia.
    replace (length front - length front) with 0 by lia.
    by replace (S (length front) - length front) with 1 by lia.
  - rewrite !lookup_app_r by lia.
    replace (length front - length front) with 0 by lia.
    by replace (S (length front) - length front) with 1 by lia.
  - intros j H1 H2. destruct (decide (j < length front)).
    + by rewrite !lookup_app_l by done.
    + rewrite !lookup_app_r by lia.
      destruct (j - length front) as [|[|k]] eqn:E; try lia. reflexivity.
Qed.

Lemma insertBefore_lookup {B} (f : Li -> B) lis prev :
  S prev < length lis ->
  let l := f <$> lis in
  let l' := f <$> insertBefore (S prev) prev lis in
  length l' = length l
  /\ l' !! prev = l !! S prev
  /\ l' !! S prev = l !! prev
  /\ forall j, j ≠ prev -> j ≠ S prev -> l' !! j = l !! j.
Proof.
  intros Hlen.
  destruct (insertBefore_swap lis prev Hlen) as (front & a & b & back & -> & Hf & ->).
  rewrite !fmap_app, !fmap_cons. apply swap_lookup. by rewrite length_fmap.
Qed.

Lemma insertBefore_outside prev lis :
  ¬ S prev < length lis -> insertBefore (S prev) prev lis = lis.
Proof. intros H. unfold insertBefore. by rewrite lookup_ge_None_2 by lia. Qed.

Lemma length_insertBefore prev lis :
  length (insertBefore (S prev) prev lis) = length lis.
Proof.
  destruct (decide (S prev < length lis)) as [Hlt|Hge].
  - destruct (insertBefore_swap lis prev Hlt) as (f & a & b & k & -> & _ & ->).
    rewrite !length_app. reflexivity.
  - by rewrite insertBefore_outside.
Qed.

Lemma insertBefore_twice prev lis :
  insertBefore (S prev) prev (insertBefore (S prev) prev lis) = lis.
Proof.
  destruct (decide (S prev < length lis)) as [Hlt|Hge].
  - destruct (insertBefore_swap lis prev Hlt) as (f & a & b & k & -> & Hf & ->).
    destruct (insertBefore_swap (f ++ b :: a :: k) prev)
      as (f' & a' & b' & k' & E & Hf' & ->).
    { rewrite length_app in *. simpl in *. exact Hlt. }
    apply app_inj_1 in E as [<- E]; [| congruence].
    by injection E as <- <- <-.
  - by rewrite !(insertBefore_outside prev lis Hge).
Qed.

Lemma insertBefore_Permutation prev lis :
  insertBefore (S prev) prev lis ≡ₚ lis.
Proof.
  destruct (decide (S prev < length lis)) as [Hlt|Hge].
  - destruct (insertBefore_swap lis prev Hlt) as (f & a & b & k & -> & _ & ->).
    apply Permutation_app_head, Permutation_swap.
  - by rewrite insertBefore_outside.
Qed.

Lemma insertBefore_moved prev lis :
  S prev < length lis ->
  insertBefore (S prev) prev lis !! prev = lis !! S prev
  /\ insertBefore (S prev) prev lis !! S prev = lis !! prev.
Proof.
  intros Hlt.
  destruct (insertBefore_lookup id lis prev Hlt) as (_ & H1 & H2 & _).
  by rewrite !list_fmap_id in H1, H2.
Qed.

(** ** Looking for a value among the wrappers *)

Lemma valueExists_from_true i ws v item :
  valueExists_from i ws v item = true
  <-> exists j w, ws !! j = Some w /\ item ≠ Some (i + j) /\ innerText w = v.
Proof.
  revert i. induction ws as [|w ws IH]; intros i; simpl.
  - split; [discriminate|]. by intros (j & w & H & _).
  - destruct (negb (bool_decide (item = Some i)) && String.eqb (innerText w) v)
      eqn:E.
    + split; [intros _ | done].
      apply andb_true_iff in E as [E1 E2].
      apply negb_true_iff, bool_decide_eq_false in E1.
      apply String.eqb_eq in E2.
      exists 0, w. rewrite Nat.add_0_r. done.
    + rewrite IH. split.
      * intros (j & w' & H1 & H2 & H3). exists (S j), w'.
        rewrite <- Nat.add_succ_comm. done.
      * intros ([|j] & w' & H1 & H2 & H3).
        -- simpl in H1. injection H1 as <-. rewrite Nat.add_0_r in H2.
           apply andb_false_iff in E as [E|E].
           ++ apply negb_false_iff, bool_decide_eq_true in E. done.
           ++ apply String.eqb_neq in E. done.
        -- exists j, w'. rewrite Nat.add_succ_comm. done.
Qed.

Lemma valueExists_from_None ws v :
  valueExists_from 0 ws v None = true <-> v ∈ innerText <$> ws.
Proof.
  rewrite valueExists_from_true, list_elem_of_fmap. split.
  - intros (j & w & H & _ & <-). exists w. split; [done|].
    by apply list_elem_of_lookup_2 with j.
  - intros (w & -> & Hw). apply list_elem_of_lookup_1 in Hw as [j Hj].
    exists j, w. done.
Qed.

Lemma valueExists_from_alter f li lis v :
  valueExists_from 0 (item_wrapper <$> alter f li lis) v (Some li)
  = valueExists_from 0 (item_wrapper <$> lis) v (Some li).
Proof.
  apply eq_true_iff_eq. rewrite !valueExists_from_true.
  split; intros (j & w & H1 & H2 & H3); exists j, w; simpl in H2;
    (split; [| done]); assert (li ≠ j) by congruence;
    rewrite list_lookup_fmap in *.
  - by rewrite list_lookup_alter_ne in H1.
  - by rewrite list_lookup_alter_ne.
Qed.

Lemma valueExists_from_text lis v :
  valueExists_from 0 (item_wrapper <$> lis) v None = true <-> v ∈ text_of <$> lis.
Proof.
  rewrite valueExists_from_None. unfold text_of.
  by rewrite <- list_fmap_compose.
Qed.

(** ** What [addItems] appends *)

Lemma appended_allowed listItems lis :
  appended true listItems lis = lis ++ (_itemHTML <$> listItems).
Proof.
  revert lis. induction listItems as [|x l IH]; intros lis; simpl.
  - by rewrite app_nil_r.
  - unfold appended in *. simpl. rewrite IH. by rewrite <- app_assoc.
Qed.

Lemma appended_existing v lis :
  v ∈ innerText <$> (item_wrapper <$> lis) -> appended false [v] lis = lis.
Proof.
  intros H. unfold appended. simpl.
  assert (valueExists_from 0 (item_wrapper <$> lis) v None = true) as ->; [| done].
  by apply valueExists_from_None.
Qed.

Lemma appended_app allowDuplicates l1 l2 lis :
  appended allowDuplicates (l1 ++ l2) lis
  = appended allowDuplicates l2 (appended allowDuplicates l1 lis).
Proof. unfold appended. apply fold_left_app. Qed.

Lemma appended_cons allowDuplicates x l lis :
  appended allowDuplicates (x :: l) lis
  = appended allowDuplicates l
      (if allowDuplicates
          || negb (valueExists_from 0 (item_wrapper <$> lis) x None)
       then lis ++ [_itemHTML x] else lis).
Proof. reflexivity. Qed.

Lemma appended_sublist allowDuplicates listItems :
  forall lis,
    exists k,
      appended allowDuplicates listItems lis = lis ++ (_itemHTML <$> k)
      /\ k `sublist_of` listItems.
Proof.
  induction listItems as [|x l IH]; intros lis.
  - exists []. split; [by rewrite app_nil_r | constructor].
  - rewrite appended_cons. destruct (allowDuplicates || negb _).
    + destruct (IH (lis ++ [_itemHTML x])) as (k & -> & Hk).
      exists (x :: k). split; [by rewrite <- app_assoc | by constructor].
    + destruct (IH lis) as (k & -> & Hk).
      exists k. split; [done | by constructor].
Qed.

(** A value that is rendered as it is written is shown after [addItems],
    by the item added for it or by one that was there. *)
Lemma appended_shows allowDuplicates listItems :
  forall lis v,
    v ∈ listItems -> rendered v = v ->
    v ∈ text_of <$> appended allowDuplicates listItems lis.
Proof.
  induction listItems as [|x l IH]; intros lis v Hv Hr; [by inversion Hv|].
  rewrite appended_cons. apply elem_of_cons in Hv as [->|Hv]; [| by apply IH].
  destruct (appended_sublist allowDuplicates l
              (if allowDuplicates
                  || negb (valueExists_from 0 (item_wrapper <$> lis) x None)
               then lis ++ [_itemHTML x] else lis)) as (k & -> & _).
  rewrite fmap_app. apply elem_of_app. left.
  destruct (allowDuplicates || negb _) eqn:E.
  - rewrite fmap_app. apply elem_of_app. right.
    unfold text_of. simpl. rewrite Hr. by left.
  - apply orb_false_iff in E as [_ E]. apply negb_false_iff in E.
    by apply valueExists_from_text.
Qed.

Lemma appended_shown listItems :
  forall lis,
    (forall v, v ∈ listItems -> v ∈ text_of <$> lis) ->
    appended false listItems lis = lis.
Proof.
  induction listItems as [|x l IH]; intros lis H; [reflexivity|].
  rewrite appended_cons.
  assert (valueExists_from 0 (item_wrapper <$> lis) x None = true) as ->.
  { apply valueExists_from_text, H. by left. }
  simpl. apply IH. intros v Hv. apply H. by right.
Qed.

Lemma item_of_lastSelected lis :
  item_wrapper <$> lastSelected lis = item_wrapper <$> lis.
Proof.
  unfold lastSelected. apply list_eq. intros i.
  rewrite !list_lookup_fmap.
  destruct (decide (pred (length lis) = i)) as [<-|Hne].
  - rewrite list_lookup_alter_eq, list_lookup_fmap.
    by destruct (lis !! pred (length lis)).
  - rewrite list_lookup_alter_ne by done. rewrite list_lookup_fmap.
    by destruct (lis !! i).
Qed.

Lemma through_wrappers (f : ItemWrapper -> string) (a b : list Li) :
  item_wrapper <$> a = item_wrapper <$> b ->
  (fun l => f (item_wrapper l)) <$> a = (fun l => f (item_wrapper l)) <$> b.
Proof.
  intros H.
  change (fun l => f (item_wrapper l)) with (f ∘ item_wrapper).
  by rewrite !list_fmap_compose, H.
Qed.

Lemma wrappers_alter w (li : nat) (lis : list Li) :
  item_wrapper <$> alter (set_item_wrapper w) li lis
  = alter (fun _ => w) li (item_wrapper <$> lis).
Proof. apply list_fmap_alter. by apply Forall_true. Qed.

Lemma wrappers_reselected (f : bool -> bool) (lis : list Li) :
  item_wrapper <$> ((fun l => mkLi (item_wrapper l) (f (selected l))) <$> lis)
  = item_wrapper <$> lis.
Proof. rewrite <- list_fmap_compose. by apply list_fmap_ext. Qed.

Lemma wrappers_select b (li : nat) (lis : list Li) :
  item_wrapper <$> alter (fun l => mkLi (item_wrapper l) b) li lis
  = item_wrapper <$> lis.
Proof.
  rewrite (list_fmap_alter _ _ id); [| by apply Forall_true].
  by apply list_alter_id.
Qed.

Lemma item_of_alter v (li : nat) (lis : list Li) :
  item_of <$> alter (set_item_wrapper (Text v)) li lis
  = <[li := v]> (item_of <$> lis).
Proof.
  rewrite list_insert_alter. apply list_fmap_alter. by apply Forall_true.
Qed.

Lemma item_of_itemHTML (l : list string) :
  (fun el => _decodeHtml (innerHTML (item_wrapper el))) <$> (_itemHTML <$> l) = l.
Proof. induction l as [|x l IH]; simpl; [done | by f_equal]. Qed.

(** ** Running the handlers *)

Lemma _addListItem_run attrs lis inp ed evs als e :
  _addListItem e (El attrs lis inp ed evs als) =
  Returned tt
    (if enterOrNotKeyboard e && negb (String.eqb (Js.trim inp) EmptyString) then
       if negb (allowDuplicatesOf (lookup_attribute "allow-duplicates" attrs))
          && valueExists_from 0 (item_wrapper <$> lis) inp None
       then committed attrs lis inp ed evs (als ++ prompt_shown attrs)
              (edited lis) id
       else
         El attrs (lastSelected (lis ++ [_itemHTML inp])) EmptyString ed
            (evs ++ [addDetail inp]) als
     else El attrs lis inp ed evs als).
Proof.
  unfold _addListItem.
  destruct (enterOrNotKeyboard e); [| reflexivity].
  unfold mbind at 1, M_bind at 1, theShadowRoot at 1. simpl.
  destruct (String.eqb (Js.trim inp) EmptyString); [reflexivity|]. simpl.
  unfold mbind at 1, M_bind at 1, getAttribute at 1. simpl.
  unfold mbind at 1, M_bind at 1, getAttribute at 1. simpl.
  unfold prompt_shown.
  destruct (allowDuplicatesOf (lookup_attribute "allow-duplicates" attrs)) eqn:Ea;
    simpl.
  - unfold mbind at 1, M_bind at 1. simpl.
    unfold mbind at 1, M_bind at 1. rewrite addItems_run, Ea.
    rewrite appended_allowed. simpl.
    run. simpl. destruct (lis ++ [_itemHTML inp]) eqn:El0.
    + by destruct lis.
    + rewrite <- El0. unfold _liSelected, _cleanSelection. run.
      rewrite length_fmap. rewrite decide_True; [reflexivity|].
      rewrite El0. simpl. lia.
  - unfold mbind at 1, M_bind at 1, _valueExists at 1. run. simpl.
    destruct (valueExists_from 0 (item_wrapper <$> lis) inp None) eqn:Ev.
    + destruct (String.eqb _ EmptyString); simpl.
      * rewrite app_nil_r. apply blurEditInput_run.
      * apply blurEditInput_run.
    + pose proof (addItems_run attrs lis inp ed evs als [inp]) as Ha.
      revert Ha. run. intros ->. rewrite Ea. unfold appended. simpl.
      rewrite Ev. simpl.
      destruct (lis ++ [_itemHTML inp]) eqn:El0.
      * by destruct lis.
      * rewrite <- El0. unfold _liSelected, _cleanSelection. run.
        rewrite length_fmap. rewrite decide_True; [reflexivity|].
        rewrite El0. simpl. lia.
Qed.

Lemma _removeListItemHandler_run attrs lis inp ed evs als e l :
  lis !! target e = Some l ->
  _removeListItemHandler e (El attrs lis inp ed evs als) =
  Returned tt
    (El attrs (delete (target e) lis) inp (commit_editing lis (target e) ed)
        ((evs ++ commit_events attrs lis (target e) ed)
         ++ [removeDetail (item_of l)])
        (als ++ commit_alerts attrs lis (target e) ed)).
Proof.
  intros Hl. unfold _removeListItemHandler.
  unfold mbind at 1, M_bind at 1, _getLi at 1. run.
  rewrite decide_True by (by apply lookup_lt_Some in Hl). rewrite Hl.
  pose proof (_removeListItem_run attrs lis inp ed evs als (target e)) as Hr.
  revert Hr. unfold committed. run. intros ->.
  by rewrite commit_lis_delete.
Qed.

Lemma _moveUpListItemEvent_run attrs lis inp ed evs als e prev l :
  target e = S prev ->
  commit_lis attrs lis (S prev) ed !! S prev = Some l ->
  _moveUpListItemEvent e (El attrs lis inp ed evs als) =
  Returned tt
    (El attrs (insertBefore (S prev) prev (commit_lis attrs lis (S prev) ed))
        inp (commit_editing lis (S prev) ed)
        ((evs ++ commit_events attrs lis (S prev) ed)
         ++ [moveDetail "up" (item_of l)])
        (als ++ commit_alerts attrs lis (S prev) ed)).
Proof.
  intros Ht Hl. pose proof (lookup_lt_Some _ _ _ Hl) as Hlt.
  unfold _moveUpListItemEvent.
  unfold mbind at 1, M_bind at 1, _getLi at 1. run. rewrite Ht.
  rewrite decide_True by (by rewrite length_commit_lis in Hlt).
  pose proof (_moveUpListItem_run attrs lis inp ed evs als (S prev)) as Hr.
  revert Hr. unfold mbind, M_bind, committed. run. intros ->. simpl.
  destruct (insertBefore_moved prev _ Hlt) as [-> _]. by rewrite Hl.
Qed.

Lemma _moveUpListItemEvent_first attrs lis inp ed evs als e :
  target e = 0 ->
  0 < length lis ->
  _moveUpListItemEvent e (El attrs lis inp ed evs als) =
  Returned tt (El attrs lis inp ed evs als).
Proof.
  intros Ht Hlt. unfold _moveUpListItemEvent.
  unfold mbind at 1, M_bind at 1, _getLi at 1. run. rewrite Ht.
  by rewrite decide_True by done.
Qed.

Lemma _moveDownListItemEvent_run attrs lis inp ed evs als e l :
  lis !! target e = Some l ->
  S (target e) < length lis ->
  _moveDownListItemEvent e (El attrs lis inp ed evs als) =
  Returned tt
    (El attrs
        (insertBefore (S (target e)) (target e)
           (commit_lis attrs lis (S (target e)) ed))
        inp (commit_editing lis (S (target e)) ed)
        ((evs ++ commit_events attrs lis (S (target e)) ed)
         ++ [moveDetail "down" (item_of l)])
        (als ++ commit_alerts attrs lis (S (target e)) ed)).
Proof.
  intros Hl Hlt. unfold _moveDownListItemEvent.
  unfold mbind at 1, M_bind at 1, _getLi at 1. run.
  rewrite decide_True by (by apply lookup_lt_Some in Hl).
  pose proof (_moveDownListItem_run attrs lis inp ed evs als (target e)) as Hr.
  rewrite decide_True in Hr by done.
  revert Hr. unfold mbind, M_bind, committed. run. intros ->. simpl.
  assert (S (target e) < length (commit_lis attrs lis (S (target e)) ed)) as Hlt'
    by (by rewrite length_commit_lis).
  destruct (insertBefore_moved (target e) _ Hlt') as [_ ->].
  rewrite commit_lis_ne by lia. by rewrite Hl.
Qed.

Lemma _moveDownListItemEvent_last attrs lis inp ed evs als e :
  target e < length lis ->
  ¬ S (target e) < length lis ->
  _moveDownListItemEvent e (El attrs lis inp ed evs als) =
  Returned tt (El attrs lis inp ed evs als).
Proof.
  intros Hlt Hn. unfold _moveDownListItemEvent.
  unfold mbind at 1, M_bind at 1, _getLi at 1. run.
  rewrite decide_True by done.
  pose proof (_moveDownListItem_run attrs lis inp ed evs als (target e)) as Hr.
  rewrite decide_False in Hr by done.
  revert Hr. unfold mbind, M_bind. run. by intros ->.
Qed.

(** ** The events of the handlers *)

Lemma call_before_connection (el : EditableList) (c : Call) :
  shadowRoot el = None -> call c el = Threw Js.TypeError el.
Proof.
  intros H. destruct el as [attrs sh ed evs als]. cbn [shadowRoot] in H.
  subst sh. destruct c as [l|index v|index|index|index|]; cbn [call];
    try reflexivity.
  unfold addItems. unfold mbind at 1, M_bind at 1, getAttribute at 1.
  cbn [attributes]. unfold mbind at 1, M_bind at 1.
  destruct l as [|x l]; [reflexivity|].
  simpl forEach. unfold mbind at 1, M_bind at 1.
  by destruct (allowDuplicatesOf _).
Qed.

Lemma _getLi_outside attrs lis inp ed evs als element :
  lis !! element = None ->
  _getLi element (El attrs lis inp ed evs als)
  = Threw Js.TypeError (El attrs lis inp ed evs als).
Proof.
  intros H. unfold _getLi. run.
  by rewrite decide_False by (apply lookup_ge_None in H; lia).
Qed.

(** With no edit input in the list, the move handlers dispatch move events
    only. *)
Lemma move_handlers_at_rest (el : EditableList) (e : Event) :
  Forall (fun w => is_text w = true) (wrappers_of el) ->
  events_such (fun detail => Js.keys detail = move_fields)
    el (after (_moveUpListItemEvent e el))
  /\ events_such (fun detail => Js.keys detail = move_fields)
       el (after (_moveDownListItemEvent e el)).
Proof.
  intros Ht. destruct el as [attrs [[lis inp]|] ed evs als].
  2:{ split; apply events_such_frame; reflexivity. }
  rewrite wrappers_of_El in Ht.
  destruct (lis !! target e) as [l|] eqn:Hl.
  2:{ split; apply events_such_frame;
        [unfold _moveUpListItemEvent | unfold _moveDownListItemEvent];
        unfold mbind at 1, M_bind at 1; by rewrite _getLi_outside. }
  pose proof (lookup_lt_Some _ _ _ Hl) as Hlt. split.
  - destruct (target e) as [|prev] eqn:Et.
    + rewrite _moveUpListItemEvent_first by (done || lia).
      by apply events_such_frame.
    + assert (commit_lis attrs lis (S prev) ed !! S prev = Some l) as Hl'.
      { unfold commit_lis. by rewrite pending_None_text. }
      rewrite (_moveUpListItemEvent_run _ _ _ _ _ _ _ prev l Et Hl').
      unfold commit_events. rewrite pending_None_text by done.
      rewrite app_nil_r. eexists [_]. split; [reflexivity|].
      by repeat constructor.
  - destruct (decide (S (target e) < length lis)) as [Hn|Hn].
    + rewrite (_moveDownListItemEvent_run _ _ _ _ _ _ _ l Hl Hn).
      unfold commit_events. rewrite pending_None_text by done.
      rewrite app_nil_r. eexists [_]. split; [reflexivity|].
      by repeat constructor.
    + rewrite _moveDownListItemEvent_last by done.
      by apply events_such_frame.
Qed.

(** C2, as the code has it.  Every change event dispatched while a handler
    runs carries a detail with exactly the fields action, previous, new when
    the handler reports an add, an edit or a remove, and exactly the fields
    action, direction, item when it reports a move, or is the edit event,
    with the fields action, previous, new, of an edit that the handler makes
    the edit input commit; with no edit input in the list every event has
    the fields of the handler.  The handlers that select an item or start
    an edit dispatch nothing. *)
Theorem change_event_fields (g : Gesture) (el : EditableList) :
  exists new,
    dispatched (after (handle g el)) = dispatched el ++ new
    /\ Forall (fun detail =>
                 Js.keys detail = fields_of g \/ is_edit_detail detail) new
    /\ (Forall (fun w => is_text w = true) (wrappers_of el) ->
        Forall (fun detail => Js.keys detail = fields_of g) new).
Proof.
  set (P := fun detail => Js.keys detail = fields_of g \/ is_edit_detail detail).
  assert (forall previousValue value, P (editDetail previousValue value)) as P_edit.
  { intros pv v. right. by exists pv, v. }
  assert (keeps (events_such P) (handle g)) as H.
  { destruct g; cbn [handle].
    - destruct (kind e).
      + apply _addListItem_events; [done | by left].
      + apply keeps_bind; [tc_solve | apply keeps_listener; auto with keeps |].
        intros ?. apply _addListItem_events; [done | by left].
    - auto with keeps.
    - auto with keeps.
    - by apply _itemEditFinished_events.
    - apply _removeListItemHandler_events; [done | by left].
    - apply _moveUpListItemEvent_events; [done | by left].
    - apply _moveDownListItemEvent_events; [done | by left]. }
  destruct (H el) as (new & E & F). exists new. split; [exact E|].
  split; [exact F|]. intros Ht.
  assert (fields_of g = change_fields ->
          Forall (fun detail => Js.keys detail = fields_of g) new) as Hc.
  { intros Hg. eapply Forall_impl; [exact F|].
    intros d [Hd|(pv & v & ->)]; [exact Hd | by rewrite Hg]. }
  assert (forall m,
             handle g = m ->
             events_such (fun detail => Js.keys detail = move_fields) el
               (after (m el)) ->
             fields_of g = move_fields ->
             Forall (fun detail => Js.keys detail = fields_of g) new) as Hm.
  { intros m Em (new' & E' & F') ->. rewrite Em in E. rewrite E in E'.
    apply app_inv_head in E'. by subst new'. }
  destruct g; try (by apply Hc).
  - eapply Hm; [reflexivity | | reflexivity].
    apply (proj1 (move_handlers_at_rest el e Ht)).
  - eapply Hm; [reflexivity | | reflexivity].
    apply (proj2 (move_handlers_at_rest el e Ht)).
Qed.

(** C2, as the claim words it, fails: the detail of the event dispatched for
    a move up has the fields action, direction, item. *)
Lemma move_event_has_other_fields :
  ~ (forall g el, exists new,
        dispatched (after (handle g el)) = dispatched el ++ new
        /\ Forall (fun detail => Js.keys detail = change_fields) new).
Proof.
  intros H.
  destruct (H (MoveUpGesture (mkEvent OtherEvent 1)) two_colors) as (new & E & F).
  vm_compute in E. destruct new as [|d [|d' new]]; try discriminate E.
  injection E as E. subst d. inversion F as [|? ? K _]. discriminate K.
Qed.

(** ** The public mutators and the events *)



(** ** The public methods that take an index *)

(** C4.  On a connected element whose list has n items, [removeItem(index)]
    returns; when 0 <= index < n the list afterwards is the list before
    without the item at position [index], the other items keeping their
    values and order; for any other integer index the list is unchanged. *)
Theorem removeItem_removes_the_indexed_item (el : EditableList) (index : Z) :
  connected el ->
  let l := list_of el in
  let r := removeItem index el in
  returns r
  /\ ((0 ≤ index < Z.of_nat (length l))%Z ->
      list_of (after r)
      = take (Z.to_nat index) l ++ drop (S (Z.to_nat index)) l)
  /\ (¬ (0 ≤ index < Z.of_nat (length l))%Z -> list_of (after r) = l).
Proof.
  intros Hc. destruct (connected_inv el Hc) as (attrs & lis & inp & ed & evs & als & ->). simpl.
  rewrite removeItem_run. simpl after. rewrite !list_of_El.
  rewrite length_fmap. split; [exact I|]. split; intros Hi.
  - rewrite decide_True by done. unfold committed. rewrite list_of_El.
    by rewrite commit_lis_delete, list_fmap_delete, delete_take_drop.
  - by rewrite decide_False by done.
Qed.





(** ** Adding a value that is already there *)

(** C1, as the code has it.  On a connected element whose allow-duplicates
    attribute is "false", adding a value that is already an item of the
    list, and that is shown as it is written (text without markup, with no
    white space that rendering collapses or strips), leaves the list
    unchanged; [addItems] shows nothing, and the add handler, fired by Enter
    or by a click with a value that is not blank while no item is being
    edited, shows the duplicate prompt, or nothing when the prompt is
    blank. *)
Theorem duplicate_add_leaves_the_list (el : EditableList) (v : string) :
  connected el ->
  duplicates_disallowed el ->
  Text v ∈ wrappers_of el ->
  shown_as_written v ->
  (let r := addItems [v] el in
   returns r /\ list_of (after r) = list_of el /\ alerts (after r) = alerts el)
  /\ (forall e, enterOrNotKeyboard e = true -> Js.trim v ≠ EmptyString ->
      Forall (fun w => is_text w = true) (wrappers_of el) ->
      let r := (typeNewItem v;; _addListItem e) el in
      returns r /\ list_of (after r) = list_of el
      /\ alerts (after r) = alerts el ++ prompt_shown (attributes el)).
Proof.
  intros Hc Hd Hv [_ Hr].
  destruct (connected_inv el Hc) as (attrs & lis & inp & ed & evs & als & ->).
  unfold duplicates_disallowed in Hd. rewrite wrappers_of_El in Hv.
  cbn [attributes] in Hd.
  assert (v ∈ innerText <$> (item_wrapper <$> lis)) as Hs.
  { apply list_elem_of_fmap. exists (Text v). split; [| done].
    simpl. by rewrite Hr. }
  split.
  - rewrite addItems_run, Hd.
    change (allowDuplicatesOf (Some "false")) with false.
    by rewrite appended_existing.
  - intros e He Hb Ht. rewrite wrappers_of_El in Ht.
    unfold mbind, M_bind, typeNewItem, set_add_input. run.
    rewrite _addListItem_run, He, Hd.
    apply String.eqb_neq in Hb. rewrite Hb.
    assert (valueExists_from 0 (item_wrapper <$> lis) v None = true) as ->
      by (by apply valueExists_from_None).
    change (negb (allowDuplicatesOf (Some "false"))) with true. cbn [negb andb].
    by rewrite committed_rest by (by apply pending_None_text).
Qed.

(** C1, as the claim words it, fails for [addItems]: the list is left
    unchanged but no prompt is shown. *)
Lemma addItems_shows_no_prompt :
  connected two_colors
  /\ duplicates_disallowed two_colors
  /\ "red" ∈ list_of two_colors
  /\ ~ rejects_with_prompt (addItems ["red"]) two_colors.
Proof.
  split; [by eexists|]. split; [reflexivity|]. split.
  - vm_compute. left.
  - intros [_ H]. vm_compute in H. discriminate H.
Qed.

(** ** Duplicates disallowed *)

(** C3, where the code departs from it.  With allow-duplicates "false" the
    code looks for a value among the texts the wrappers show, not among the
    values of the items.  On the duplicate-free list red, green, with no
    edit in progress, [addItems(["a ", "a "])] adds the value twice: the
    first one is shown as a without the space, which is not the value looked
    for.  And [addItems(["red"])] called while the user edits red adds a
    second red: the wrapper under edit shows no text, and the edit, finished
    with the value untouched, puts red back. *)
Theorem addItems_leaves_a_duplicate :
  connected two_colors
  /\ duplicates_disallowed two_colors
  /\ at_rest two_colors
  /\ list_of two_colors = ["red"; "green"]
  /\ list_of (after (addItems ["a "; "a "] two_colors))
     = ["red"; "green"; "a "; "a "]
  /\ list_of (after (editInterrupted (mkEvent OtherEvent 0) ["red"]
                                     (mkEvent OtherEvent 0) two_colors))
     = ["red"; "green"; "red"].
Proof.
  split; [by eexists|]. split; [reflexivity|].
  split; [split; [reflexivity | by repeat constructor]|].
  repeat split.
Qed.

Lemma written_allowed lis li newValue previousValue :
  written true lis li newValue previousValue = unless_blank newValue previousValue.
Proof. reflexivity. Qed.

Lemma allowDuplicatesOf_true a : a ≠ Some "false" -> allowDuplicatesOf a = true.
Proof.
  intros H. destruct a as [v|]; [| reflexivity]. simpl.
  apply negb_true_iff, String.eqb_neq. congruence.
Qed.

Lemma written_alter allowDuplicates f (lis : list Li) (li : nat) newValue
    previousValue :
  written allowDuplicates (alter f li lis) li newValue previousValue
  = written allowDuplicates lis li newValue previousValue.
Proof. unfold written. by rewrite valueExists_from_alter. Qed.

(** ** Running the whole edit path *)

Lemma editPath_run attrs lis inp evs als e e' l text :
  lis !! target e = Some l ->
  target e' = target e ->
  enterOrNotKeyboard e' = true ->
  editPath e text e' (El attrs lis inp false evs als) =
  let allowDuplicates :=
    allowDuplicatesOf (lookup_attribute "allow-duplicates" attrs) in
  let val := written allowDuplicates lis (target e) text (text_of l) in
  let rejected :=
    negb allowDuplicates
    && valueExists_from 0 (item_wrapper <$> lis)
         (if String.eqb (Js.trim text) EmptyString then text_of l else text)
         (Some (target e)) in
  Returned tt
    (El attrs (alter (set_item_wrapper (Text val)) (target e) lis) inp false
        (evs ++ (if negb (String.eqb val (text_of l))
                 then [[("action", Js.Str "edit");
                        ("previous", Js.Str (text_of l));
                        ("new", Js.Str val)]]
                 else []))
        (als ++ (if rejected then prompt_shown attrs else []))).
Proof.
  intros Hl Ht He. unfold editPath.
  unfold mbind at 1, M_bind at 1. rewrite (_itemEdit_run _ _ _ _ _ _ l Hl).
  fold (text_of l).
  set (l1 := set_item_wrapper (EditInput (text_of l) (text_of l)) l).
  set (lis1 := alter _ (target e) lis).
  assert (lis1 !! target e = Some l1) as Hl1.
  { unfold lis1. by rewrite list_lookup_alter_eq, Hl. }
  unfold mbind at 1, M_bind at 1.
  rewrite (typeEdit_run _ _ _ _ _ _ _ l1 text (text_of l) (text_of l) Hl1 eq_refl).
  set (l2 := set_item_wrapper (EditInput text (text_of l)) l1).
  set (lis2 := alter _ (target e) lis1).
  assert (lis2 !! target e' = Some l2) as Hl2.
  { unfold lis2. by rewrite Ht, list_lookup_alter_eq, Hl1. }
  rewrite (_itemEditFinished_run _ _ _ _ _ _ l2 text (text_of l) He Hl2 eq_refl).
  rewrite Ht. cbv zeta. unfold lis2, lis1.
  rewrite !written_alter, !valueExists_from_alter.
  rewrite !list_alter_alter_eq.
  reflexivity.
Qed.

(** ** Duplicates allowed *)

(** C8.  Duplicates are rejected only when the allow-duplicates attribute is
    exactly "false".  On a connected element whose attribute is absent or
    has any other value, whatever the list holds: [addItems] appends every
    value it is given; [changeItem] at a valid index, no edit being in
    progress, writes the new value; the add handler fired by Enter or by a
    click appends the typed value and shows no prompt; the edit path writes
    the typed value and shows no prompt.  A blank value is the only one not
    taken: the add handler ignores it and a change keeps the previous
    text. *)
Theorem duplicates_accepted_unless_false (el : EditableList) :
  connected el ->
  lookup_attribute "allow-duplicates" (attributes el) ≠ Some "false" ->
  (forall listItems,
      let r := addItems listItems el in
      returns r /\ list_of (after r) = list_of el ++ listItems)
  /\ (forall index newValue w,
      _editing el = false ->
      (0 ≤ index)%Z ->
      wrappers_of el !! Z.to_nat index = Some w ->
      let r := changeItem index newValue el in
      returns r
      /\ list_of (after r)
         = <[Z.to_nat index := unless_blank newValue (innerText w)]> (list_of el))
  /\ (forall text e,
      enterOrNotKeyboard e = true ->
      let r := (typeNewItem text;; _addListItem e) el in
      returns r
      /\ list_of (after r)
         = list_of el ++ (if String.eqb (Js.trim text) EmptyString then [] else [text])
      /\ alerts (after r) = alerts el)
  /\ (forall e text e' w,
      _editing el = false ->
      wrappers_of el !! target e = Some w ->
      target e' = target e ->
      enterOrNotKeyboard e' = true ->
      let r := editPath e text e' el in
      returns r
      /\ list_of (after r)
         = <[target e := unless_blank text (innerText w)]> (list_of el)
      /\ alerts (after r) = alerts el).
Proof.
  intros Hc Ha.
  destruct (connected_inv el Hc) as (attrs & lis & inp & ed & evs & als & ->).
  cbn [attributes] in Ha. apply allowDuplicatesOf_true in Ha.
  split; [| split; [| split]].
  - intros listItems. cbv zeta. rewrite addItems_run, Ha, appended_allowed.
    split; [exact I|]. cbn [after]. rewrite !list_of_El, fmap_app.
    f_equal. apply item_of_itemHTML.
  - intros index newValue w He Hi Hw. cbv zeta. cbn [_editing] in He. subst ed.
    rewrite wrappers_of_El, list_lookup_fmap in Hw.
    destruct (lis !! Z.to_nat index) as [l|] eqn:Hl; [| discriminate].
    injection Hw as <-.
    rewrite changeItem_run, Ha. split; [exact I|]. cbn [after].
    rewrite !list_of_El. unfold changed.
    rewrite decide_True by (apply lookup_lt_Some in Hl; lia).
    rewrite Hl, written_allowed. apply item_of_alter.
  - intros text e He. cbv zeta.
    unfold mbind, M_bind, typeNewItem, set_add_input. run.
    rewrite _addListItem_run, He, Ha. cbn [negb andb].
    destruct (String.eqb (Js.trim text) EmptyString); cbn [negb].
    + by rewrite app_nil_r.
    + split; [exact I|]. split; [| reflexivity].
      change (item_of <$> lastSelected (lis ++ [_itemHTML text])
              = (item_of <$> lis) ++ [text]).
      unfold item_of.
      rewrite (through_wrappers (fun w => _decodeHtml (innerHTML w)) _ _
                 (item_of_lastSelected _)).
      by rewrite fmap_app.
  - intros e text e' w He Hw Ht He'. cbv zeta. cbn [_editing] in He. subst ed.
    rewrite wrappers_of_El, list_lookup_fmap in Hw.
    destruct (lis !! target e) as [l|] eqn:Hl; [| discriminate].
    injection Hw as <-.
    rewrite (editPath_run _ _ _ _ _ _ _ l text Hl Ht He'), Ha. cbv zeta.
    cbn [negb andb after alerts]. rewrite app_nil_r.
    split; [exact I|]. split; [| reflexivity].
    rewrite !list_of_El, written_allowed. apply item_of_alter.
Qed.

(** ** Blank values *)

(** C10, where the code departs from it.  For a blank value the code keeps
    the previous value, but the previous value it takes is the text the
    wrapper shows, not the value of the item.  On the list red, green, "a "
    (an a and a space) [changeItem(2, " ")] rewrites the third item to a,
    without the space; so does an edit of that item finished with a blank
    value in the input. *)
Theorem blank_value_rewrites_the_item :
  connected trailing_space
  /\ list_of trailing_space = ["red"; "green"; "a "]
  /\ Js.trim " " = EmptyString
  /\ list_of (after (changeItem 2 " " trailing_space)) = ["red"; "green"; "a"]
  /\ list_of (after (editPath (mkEvent OtherEvent 2) " "
                               (mkEvent OtherEvent 2) trailing_space))
     = ["red"; "green"; "a"].
Proof. split; [by eexists|]. repeat split. Qed.

(** ** The initial items *)

Lemma _initialItems_fold (attrs : list (string * string)) (acc : list string) :
  fold_left
    (fun items attr =>
       if Js.includes (fst attr) "list-item" then items ++ [snd attr] else items)
    attrs acc
  = acc ++ (snd <$> List.filter (fun attr => Js.includes (fst attr) "list-item") attrs).
Proof.
  revert acc. induction attrs as [|a attrs IH]; intros acc; simpl.
  - by rewrite app_nil_r.
  - rewrite IH. destruct (Js.includes (fst a) "list-item"); [| done].
    simpl. by rewrite <- app_assoc.
Qed.

(** What the code does: the initial list holds the values of the attributes
    whose name contains [list-item], in document order. *)
Lemma connectedCallback_items attrs ed evs als :
  let r := connectedCallback (mkEditableList attrs None ed evs als) in
  returns r
  /\ list_of (after r)
     = snd <$> List.filter (fun attr => Js.includes (fst attr) "list-item") attrs.
Proof.
  cbv zeta. unfold connectedCallback, _init, attachShadow, _initialItems.
  run. simpl. split; [exact I|]. rewrite _initialItems_fold. simpl.
  apply item_of_itemHTML.
Qed.

(** C7, where the code departs from it.  The class comment and the README
    give the form of an initial item as [list-item-X]; the element
    [<editable-list list-item-1="red" my-list-item="x">] starts with the two
    items red and x, although the name [my-list-item] is not of that form. *)
Theorem stray_attribute_becomes_item :
  list_of (after (connectedCallback stray_markup)) = ["red"; "x"]
  /\ Js.startsWith "my-list-item" "list-item-" = false
  /\ Js.includes "my-list-item" "list-item" = true.
Proof. repeat split. Qed.

(** ** Reachable elements *)

Lemma inputs_app ws ws' : inputs (ws ++ ws') = inputs ws + inputs ws'.
Proof. unfold inputs. by rewrite List.filter_app, length_app. Qed.

Lemma inputs_zero ws :
  inputs ws = 0 <-> Forall (fun w => is_text w = true) ws.
Proof.
  unfold inputs. induction ws as [|w ws IH]; simpl.
  - split; [constructor | done].
  - destruct (is_text w) eqn:E; simpl.
    + rewrite IH. split; [by constructor | by inversion 1].
    + split; [discriminate|]. inversion 1; congruence.
Qed.

Lemma inputs_delete (li : nat) ws : inputs (delete li ws) <= inputs ws.
Proof.
  revert li. induction ws as [|w ws IH]; intros [|li]; simpl; try lia.
  - unfold inputs. simpl. destruct (negb (is_text w)); simpl; lia.
  - specialize (IH li). unfold inputs in *. simpl.
    change (list_delete li ws) with (delete li ws).
    destruct (negb (is_text w)); simpl; lia.
Qed.

Lemma inputs_alter (li : nat) ws w0 w :
  ws !! li = Some w0 ->
  inputs (alter (fun _ => w) li ws) + (if is_text w0 then 0 else 1)
  = inputs ws + (if is_text w then 0 else 1).
Proof.
  revert li. induction ws as [|x ws IH]; intros [|li] H; simpl in *;
    try discriminate.
  - injection H as ->. unfold inputs. simpl.
    destruct (is_text w0), (is_text w); simpl; lia.
  - specialize (IH li H). unfold inputs in *. simpl.
    change (list_alter (fun _ => w) li ws) with (alter (fun _ => w) li ws).
    destruct (negb (is_text x)); simpl; lia.
Qed.

Lemma inputs_swap front a b back :
  inputs (front ++ b :: a :: back) = inputs (front ++ a :: b :: back).
Proof.
  rewrite !inputs_app. f_equal. unfold inputs. simpl.
  destruct (negb (is_text a)), (negb (is_text b)); reflexivity.
Qed.

Lemma inputs_insertBefore prev lis :
  inputs (item_wrapper <$> insertBefore (S prev) prev lis)
  = inputs (item_wrapper <$> lis).
Proof.
  destruct (decide (S prev < length lis)) as [Hlt|Hge].
  - destruct (insertBefore_swap lis prev Hlt) as (f & a & b & k & -> & _ & ->).
    rewrite !fmap_app, !fmap_cons. apply inputs_swap.
  - by rewrite insertBefore_outside.
Qed.

Lemma inputs_appended allowDuplicates listItems :
  forall lis,
    inputs (item_wrapper <$> appended allowDuplicates listItems lis)
    = inputs (item_wrapper <$> lis).
Proof.
  induction listItems as [|x l IH]; intros lis; [reflexivity|].
  unfold appended. simpl. fold (appended allowDuplicates l).
  destruct (allowDuplicates || negb _); [| apply (IH lis)].
  etransitivity; [apply (IH (lis ++ [_itemHTML x]))|].
  rewrite fmap_app, inputs_app. simpl. unfold inputs at 2. simpl. lia.
Qed.

Lemma inputs_to_text v (li : nat) (lis : list Li) :
  inputs (item_wrapper <$> alter (set_item_wrapper (Text v)) li lis)
  <= inputs (item_wrapper <$> lis).
Proof.
  rewrite wrappers_alter.
  destruct ((item_wrapper <$> lis) !! li) as [w0|] eqn:E.
  - pose proof (inputs_alter li _ w0 (Text v) E) as H. simpl in H.
    destruct (is_text w0); lia.
  - rewrite <- list_insert_alter, list_insert_ge; [done|].
    by apply lookup_ge_None.
Qed.

Lemma inputs_to_input v pv (li : nat) (lis : list Li) :
  inputs (item_wrapper <$> alter (set_item_wrapper (EditInput v pv)) li lis)
  <= S (inputs (item_wrapper <$> lis)).
Proof.
  rewrite wrappers_alter.
  destruct ((item_wrapper <$> lis) !! li) as [w0|] eqn:E.
  - pose proof (inputs_alter li _ w0 (EditInput v pv) E) as H. simpl in H.
    destruct (is_text w0); lia.
  - rewrite <- list_insert_alter, list_insert_ge; [lia|].
    by apply lookup_ge_None.
Qed.

Lemma inputs_input_to_text v (li : nat) (lis : list Li) l value previousValue :
  lis !! li = Some l ->
  item_wrapper l = EditInput value previousValue ->
  S (inputs (item_wrapper <$> alter (set_item_wrapper (Text v)) li lis))
  = inputs (item_wrapper <$> lis).
Proof.
  intros Hl Hw. rewrite wrappers_alter.
  assert ((item_wrapper <$> lis) !! li = Some (EditInput value previousValue))
    as E by (rewrite list_lookup_fmap, Hl; simpl; by rewrite Hw).
  pose proof (inputs_alter li _ _ (Text v) E) as H. simpl in H. lia.
Qed.

Lemma inputs_input_to_input v pv (li : nat) (lis : list Li) l value previousValue :
  lis !! li = Some l ->
  item_wrapper l = EditInput value previousValue ->
  inputs (item_wrapper <$> alter (set_item_wrapper (EditInput v pv)) li lis)
  = inputs (item_wrapper <$> lis).
Proof.
  intros Hl Hw. rewrite wrappers_alter.
  assert ((item_wrapper <$> lis) !! li = Some (EditInput value previousValue))
    as E by (rewrite list_lookup_fmap, Hl; simpl; by rewrite Hw).
  pose proof (inputs_alter li _ _ (EditInput v pv) E) as H. simpl in H. lia.
Qed.

Lemma pending_Some lis li ed value previousValue :
  pending lis li ed = Some (value, previousValue) ->
  ed = true
  /\ exists l, lis !! li = Some l /\ item_wrapper l = EditInput value previousValue.
Proof.
  unfold pending. destruct (lis !! li) as [l|] eqn:Hl; [| discriminate]. simpl.
  destruct (item_wrapper l) as [t|v pv] eqn:Hw; [discriminate|].
  destruct ed; [| discriminate]. intros [= <- <-]. split; [done|].
  by exists l.
Qed.

(** A blur leaves at most one edit input, and none unless [_editing] stays
    set. *)
Lemma commit_inputs attrs lis li (ed : bool) :
  inputs (item_wrapper <$> lis) <= (if ed then 1 else 0) ->
  inputs (item_wrapper <$> commit_lis attrs lis li ed)
  <= (if commit_editing lis li ed then 1 else 0).
Proof.
  intros HP. unfold commit_lis, commit_editing.
  destruct (pending lis li ed) as [[v pv]|] eqn:E; [| exact HP].
  apply pending_Some in E as (-> & l & Hl & Hw).
  pose proof (inputs_input_to_text
                (written (allowDuplicatesOf
                            (lookup_attribute "allow-duplicates" attrs))
                         lis li v pv) li lis l v pv Hl Hw).
  cbv iota in HP |- *. lia.
Qed.

Lemma committed_inputs attrs lis inp (ed : bool) evs als li k :
  inputs (item_wrapper <$> lis) <= (if ed then 1 else 0) ->
  (forall lis', inputs (item_wrapper <$> k lis') <= inputs (item_wrapper <$> lis')) ->
  exists lis' inp' ed' evs' als',
    committed attrs lis inp ed evs als li k = El attrs lis' inp' ed' evs' als'
    /\ inputs (item_wrapper <$> lis') <= (if ed' : bool then 1 else 0).
Proof.
  intros HP Hk. do 5 eexists. split; [reflexivity|].
  etransitivity; [apply Hk | by apply commit_inputs].
Qed.

(** A connected element stays connected with the same attributes, and keeps
    at most one edit input, through every step. *)
Lemma step_El s attrs (lis : list Li) inp (ed : bool) evs als :
  inputs (item_wrapper <$> lis) <= (if ed then 1 else 0) ->
  exists lis' inp' ed' evs' als',
    after (step s (El attrs lis inp ed evs als)) = El attrs lis' inp' ed' evs' als'
    /\ inputs (item_wrapper <$> lis') <= (if ed' then 1 else 0).
Proof.
  intros HP.
  assert (forall attrs lis inp (ed : bool) evs als e,
             inputs (item_wrapper <$> lis) <= (if ed then 1 else 0) ->
             exists lis' inp' ed' evs' als',
               after (_addListItem e (El attrs lis inp ed evs als))
               = El attrs lis' inp' ed' evs' als'
               /\ inputs (item_wrapper <$> lis') <= (if ed' : bool then 1 else 0))
    as Hadd.
  { clear. intros attrs lis inp ed evs als e HP. rewrite _addListItem_run.
    destruct (enterOrNotKeyboard e && _); [| by do 5 eexists].
    destruct (negb _ && _).
    - cbn [after]. by apply committed_inputs.
    - do 5 eexists. split; [reflexivity|].
      rewrite item_of_lastSelected, fmap_app, inputs_app.
      unfold inputs at 2. simpl. lia. }
  destruct s as [c|g|text|li text|].
  - destruct c; cbn [step call].
    + rewrite addItems_run. do 5 eexists. split; [reflexivity|].
      by rewrite inputs_appended.
    + rewrite changeItem_run. do 5 eexists. split; [reflexivity|].
      unfold changed. case_decide; [| done]. destruct ed; [done|].
      destruct (lis !! Z.to_nat index); [| done].
      etransitivity; [apply inputs_to_text | done].
    + rewrite removeItem_run. case_decide; [| by do 5 eexists]. cbn [after].
      apply committed_inputs; [done|]. intros lis'.
      rewrite list_fmap_delete. apply inputs_delete.
    + rewrite moveItemUp_run. case_decide; [| by do 5 eexists].
      destruct (Z.to_nat index); [by do 5 eexists|]. cbn [after].
      apply committed_inputs; [done|]. intros lis'.
      by rewrite inputs_insertBefore.
    + rewrite moveItemDown_run. case_decide; [| by do 5 eexists].
      case_decide; [| by do 5 eexists]. cbn [after].
      apply committed_inputs; [done|]. intros lis'.
      by rewrite inputs_insertBefore.
    + rewrite removeAllItems_run. cbn [after].
      apply committed_inputs; [done|]. intros lis'. unfold inputs. simpl. lia.
  - destruct g; cbn [step handle].
    + destruct (kind e); [by apply Hadd|].
      unfold mbind, M_bind, _cleanSelection. run.
      apply Hadd. by rewrite (wrappers_reselected (fun _ => false)).
    + unfold _liSelected, _cleanSelection. run. rewrite length_fmap.
      case_decide; do 5 eexists; (split; [reflexivity|]).
      * by rewrite wrappers_select, (wrappers_reselected (fun _ => false)).
      * by rewrite (wrappers_reselected (fun _ => false)).
    + destruct ed; [by do 5 eexists|].
      destruct (lis !! target e) as [l|] eqn:Hl.
      * rewrite (_itemEdit_run _ _ _ _ _ _ l Hl). do 5 eexists.
        split; [reflexivity|].
        cbv iota in HP |- *.
        etransitivity; [apply inputs_to_input | lia].
      * unfold _itemEdit. run.
        rewrite decide_False by (apply lookup_ge_None in Hl; lia).
        do 5 eexists. split; [reflexivity | cbv iota in HP |- *; lia].
    + destruct ed; [| by do 5 eexists].
      destruct (enterOrNotKeyboard e) eqn:He.
      2:{ unfold _itemEditFinished.
          unfold mbind at 1, M_bind at 1, get_editing at 1. simpl. rewrite He.
          by do 5 eexists. }
      destruct (lis !! target e) as [l|] eqn:Hl.
      2:{ unfold _itemEditFinished.
          unfold mbind at 1, M_bind at 1, get_editing at 1. simpl. rewrite He.
          run. rewrite decide_False by (apply lookup_ge_None in Hl; lia).
          by do 5 eexists. }
      destruct (item_wrapper l) as [t|value previousValue] eqn:Hw.
      { unfold _itemEditFinished.
        unfold mbind at 1, M_bind at 1, get_editing at 1. simpl. rewrite He.
        run. rewrite decide_True by (by apply lookup_lt_Some in Hl).
        rewrite Hl, Hw. by do 5 eexists. }
      rewrite (_itemEditFinished_run _ _ _ _ _ _ l value previousValue He Hl Hw).
      cbv zeta. do 5 eexists. split; [reflexivity|].
      pose proof (inputs_input_to_text
                    (written (allowDuplicatesOf
                                (lookup_attribute "allow-duplicates" attrs))
                             lis (target e) value previousValue)
                    (target e) lis l value previousValue Hl Hw).
      cbv iota in HP |- *. lia.
    + destruct (lis !! target e) as [l|] eqn:Hl.
      2:{ unfold _removeListItemHandler. unfold mbind at 1, M_bind at 1.
          rewrite _getLi_outside by done. by do 5 eexists. }
      rewrite (_removeListItemHandler_run _ _ _ _ _ _ _ l Hl).
      do 5 eexists. split; [reflexivity|].
      rewrite <- (commit_lis_delete attrs lis (target e) ed).
      rewrite list_fmap_delete.
      etransitivity; [apply inputs_delete | by apply commit_inputs].
    + destruct (lis !! target e) as [l|] eqn:Hl.
      2:{ unfold _moveUpListItemEvent. unfold mbind at 1, M_bind at 1.
          rewrite _getLi_outside by done. by do 5 eexists. }
      pose proof (lookup_lt_Some _ _ _ Hl) as Hlt.
      destruct (target e) as [|prev] eqn:Et.
      { rewrite _moveUpListItemEvent_first by (done || lia). by do 5 eexists. }
      destruct (lookup_lt_is_Some_2 (commit_lis attrs lis (S prev) ed) (S prev))
        as [l' Hl']; [by rewrite length_commit_lis|].
      rewrite (_moveUpListItemEvent_run _ _ _ _ _ _ _ prev l' Et Hl').
      do 5 eexists. split; [reflexivity|].
      rewrite inputs_insertBefore. by apply commit_inputs.
    + destruct (lis !! target e) as [l|] eqn:Hl.
      2:{ unfold _moveDownListItemEvent. unfold mbind at 1, M_bind at 1.
          rewrite _getLi_outside by done. by do 5 eexists. }
      pose proof (lookup_lt_Some _ _ _ Hl) as Hlt.
      destruct (decide (S (target e) < length lis)) as [Hn|Hn].
      * rewrite (_moveDownListItemEvent_run _ _ _ _ _ _ _ l Hl Hn).
        do 5 eexists. split; [reflexivity|].
        rewrite inputs_insertBefore. by apply commit_inputs.
      * rewrite _moveDownListItemEvent_last by done. by do 5 eexists.
  - do 5 eexists. split; [reflexivity | done].
  - cbn [step]. unfold typeEdit. run.
    destruct (lis !! li) as [l|] eqn:Hl; [| by do 5 eexists].
    destruct (item_wrapper l) as [t|value previousValue] eqn:Hw;
      [by do 5 eexists|].
    do 5 eexists. split; [reflexivity|].
    by rewrite (inputs_input_to_input _ _ _ _ l value previousValue Hl Hw).
  - simpl. unfold unselectAllItems, _cleanSelection. run.
    do 5 eexists. split; [reflexivity|].
    by rewrite (wrappers_reselected (fun _ => false)).
Qed.

Lemma reachable_El el :
  reachable el ->
  exists attrs lis inp ed evs als,
    el = El attrs lis inp ed evs als
    /\ inputs (item_wrapper <$> lis) <= (if ed : bool then 1 else 0).
Proof.
  induction 1 as [attrs | el s _ (attrs & lis & inp & ed & evs & als & -> & HP)].
  - unfold connectedCallback, _init, attachShadow, _initialItems. run. simpl.
    do 6 eexists. split; [reflexivity|].
    apply Nat.eq_le_incl, inputs_zero, Forall_fmap, Forall_fmap.
    by apply Forall_true.
  - destruct (step_El s attrs lis inp ed evs als HP)
      as (lis' & inp' & ed' & evs' & als' & E & HP').
    rewrite E. by do 6 eexists.
Qed.

(** Every element a page can reach is connected, holds at most one edit
    input, and holds none unless [_editing] is set. *)
Lemma reachable_inputs_only_while_editing el :
  reachable el ->
  connected el /\ one_edit_at_most el /\ inputs_only_while_editing el.
Proof.
  intros H.
  destruct (reachable_El el H) as (attrs & lis & inp & ed & evs & als & -> & HP).
  split; [by eexists|]. split; [exact HP|].
  intros He. cbn [_editing] in He. subst ed.
  rewrite wrappers_of_El. apply inputs_zero. lia.
Qed.

(** ** The theorems at sample elements *)

Lemma two_colors_reachable : reachable two_colors.
Proof. apply reachable_connected. Qed.

Lemma two_colors_connected : connected two_colors.
Proof. by eexists. Qed.

Lemma two_colors_texts :
  Forall (fun w => is_text w = true) (wrappers_of two_colors).
Proof. by repeat constructor. Qed.

Lemma two_colors_at_rest : at_rest two_colors.
Proof. split; [reflexivity | exact two_colors_texts]. Qed.

Lemma change_event_fields_witness :
  Forall (fun w => is_text w = true) (wrappers_of two_colors)
  /\ exists new,
       dispatched (after (handle (MoveUpGesture (mkEvent OtherEvent 1)) two_colors))
       = dispatched two_colors ++ new
       /\ Forall (fun detail => Js.keys detail = move_fields) new.
Proof.
  split; [exact two_colors_texts|].
  destruct (change_event_fields (MoveUpGesture (mkEvent OtherEvent 1)) two_colors)
    as (new & E & _ & H).
  exists new. split; [exact E | exact (H two_colors_texts)].
Defined.


Lemma duplicate_add_leaves_the_list_witness :
  connected two_colors
  /\ duplicates_disallowed two_colors
  /\ Text "red" ∈ wrappers_of two_colors
  /\ shown_as_written "red"
  /\ list_of (after (addItems ["red"] two_colors)) = ["red"; "green"]
  /\ alerts (after (addItems ["red"] two_colors)) = []
  /\ list_of (after (addByClick "red" two_colors)) = ["red"; "green"]
  /\ alerts (after (addByClick "red" two_colors)) = ["This value already exists!"].
Proof.
  assert (Text "red" ∈ wrappers_of two_colors) as Hv by (vm_compute; left).
  assert (shown_as_written "red") as Hs by (split; reflexivity).
  pose proof (duplicate_add_leaves_the_list two_colors "red"
                two_colors_connected eq_refl Hv Hs) as [(_ & H1 & H2) H3].
  destruct (H3 (mkEvent OtherEvent 0) eq_refl) as (_ & H4 & H5);
    [vm_compute; discriminate | exact two_colors_texts |].
  split; [exact two_colors_connected|]. split; [reflexivity|].
  split; [exact Hv|]. split; [exact Hs|].
  split; [exact H1|]. split; [exact H2|].
  split; [exact H4 | exact H5].
Defined.

Lemma removeItem_removes_the_indexed_item_witness :
  connected two_colors
  /\ list_of (after (removeItem 1 two_colors)) = ["red"]
  /\ list_of (after (removeItem (-1) two_colors)) = ["red"; "green"]
  /\ list_of (after (removeItem 2 two_colors)) = ["red"; "green"].
Proof.
  split; [exact two_colors_connected|]. split; [| split].
  - pose proof (removeItem_removes_the_indexed_item two_colors 1
                  two_colors_connected) as (_ & H & _).
    apply H. vm_compute. split; [discriminate | reflexivity].
  - pose proof (removeItem_removes_the_indexed_item two_colors (-1)
                  two_colors_connected) as (_ & _ & H).
    apply H. vm_compute. intros [H0 _]. by apply H0.
  - pose proof (removeItem_removes_the_indexed_item two_colors 2
                  two_colors_connected) as (_ & _ & H).
    apply H. vm_compute. intros [_ H0]. discriminate H0.
Defined.



Lemma duplicates_accepted_unless_false_witness :
  connected capital_false
  /\ lookup_attribute "allow-duplicates" (attributes capital_false) ≠ Some "false"
  /\ list_of (after (addItems ["red"; "red"] capital_false)) = ["red"; "red"; "red"]
  /\ list_of (after ((typeNewItem "red";; _addListItem (mkEvent OtherEvent 0))
                       capital_false))
     = ["red"; "red"]
  /\ alerts (after ((typeNewItem "red";; _addListItem (mkEvent OtherEvent 0))
                      capital_false))
     = [].
Proof.
  assert (connected capital_false) as Hc by (by eexists).
  assert (lookup_attribute "allow-duplicates" (attributes capital_false)
          ≠ Some "false") as Ha by (vm_compute; discriminate).
  pose proof (duplicates_accepted_unless_false capital_false Hc Ha)
    as (H1 & _ & H3 & _).
  destruct (H3 "red" (mkEvent OtherEvent 0) eq_refl) as (_ & H4 & H5).
  split; [exact Hc|]. split; [exact Ha|].
  split; [exact (proj2 (H1 ["red"; "red"]))|].
  split; [exact H4 | exact H5].
Defined.

(** * Further properties of the component *)

(** ** Before and at connection *)

(** X1.  Before [connectedCallback] has run the element has no shadow root,
    and every public method ([items], [addItems], [changeItem],
    [removeItem], [moveItemUp], [moveItemDown], [removeAllItems],
    [unselectAllItems]) throws a TypeError, whatever its arguments, and
    leaves the element as it was. *)
Theorem methods_throw_before_connection (el : EditableList) :
  shadowRoot el = None ->
  (forall c, call c el = Threw Js.TypeError el)
  /\ items el = Threw Js.TypeError el
  /\ unselectAllItems el = Threw Js.TypeError el.
Proof.
  intros H. split; [intros c; by apply call_before_connection|].
  destruct el as [attrs sh ed evs als]. cbn [shadowRoot] in H.
  subst sh. by split.
Qed.

(** X2.  [connectedCallback] on an element that has no shadow root returns
    and renders one item per attribute whose name contains [list-item], in
    document order, each holding the attribute's value as text and none
    selected; the add input is empty, and the attributes, the [_editing]
    flag and what was sent to the host are untouched.  The allow-duplicates
    attribute plays no part: equal values all become items. *)
Theorem connectedCallback_renders_attributes attrs ed evs als :
  connectedCallback (mkEditableList attrs None ed evs als)
  = Returned tt
      (El attrs
          (_itemHTML
             <$> (snd <$> List.filter
                            (fun attr => Js.includes (fst attr) "list-item")
                            attrs))
          EmptyString ed evs als).
Proof.
  unfold connectedCallback, _init, attachShadow, _initialItems. run. simpl.
  by rewrite _initialItems_fold.
Qed.

(** X3.  [connectedCallback] on an element that already has its shadow root
    (the element was moved in the document) throws the NotSupportedError of
    [attachShadow] and leaves the element, list included, as it was. *)
Theorem connectedCallback_twice_throws (el : EditableList) :
  connected el ->
  connectedCallback el = Threw Js.NotSupportedError el.
Proof.
  intros Hc.
  destruct (connected_inv el Hc) as (attrs & lis & inp & ed & evs & als & ->).
  reflexivity.
Qed.

(** ** More about [addItems] *)

(** X4.  Adding in two calls is adding in one: on a connected element
    [addItems(l1)] followed by [addItems(l2)] leaves exactly the element that
    [addItems(l1.concat(l2))] leaves. *)
Theorem addItems_in_two_calls (el : EditableList) (l1 l2 : list string) :
  connected el ->
  (addItems l1;; addItems l2) el = addItems (l1 ++ l2) el.
Proof.
  intros Hc.
  destruct (connected_inv el Hc) as (attrs & lis & inp & ed & evs & als & ->).
  unfold mbind, M_bind. rewrite !addItems_run. by rewrite appended_app.
Qed.

(** X5.  On a connected element [addItems] only appends: the list afterwards
    is the list before followed by some of the given values, in the order
    given. *)
Theorem addItems_only_appends (el : EditableList) (listItems : list string) :
  connected el ->
  exists k,
    list_of (after (addItems listItems el)) = list_of el ++ k
    /\ k `sublist_of` listItems.
Proof.
  intros Hc.
  destruct (connected_inv el Hc) as (attrs & lis & inp & ed & evs & als & ->).
  rewrite addItems_run. cbn [after]. rewrite !list_of_El.
  set (a := allowDuplicatesOf _).
  destruct (appended_sublist a listItems lis) as (k & Hk & Hs).
  exists k. split; [| done]. rewrite Hk, fmap_app. f_equal.
  apply item_of_itemHTML.
Qed.

(** X6.  With allow-duplicates "false", [addItems] is idempotent on values
    that are shown as they are written: on a connected element a second call
    with the same values changes nothing. *)
Theorem addItems_twice (el : EditableList) (listItems : list string) :
  connected el ->
  duplicates_disallowed el ->
  Forall shown_as_written listItems ->
  (addItems listItems;; addItems listItems) el = addItems listItems el.
Proof.
  intros Hc Hd Hr.
  destruct (connected_inv el Hc) as (attrs & lis & inp & ed & evs & als & ->).
  unfold duplicates_disallowed in Hd. cbn [attributes] in Hd.
  unfold mbind, M_bind. rewrite !addItems_run, Hd.
  change (allowDuplicatesOf (Some "false")) with false.
  rewrite (appended_shown listItems (appended false listItems lis)); [done|].
  intros v Hv. apply appended_shows; [done|].
  by apply (proj1 (Forall_forall _ _) Hr).
Qed.

(** X7.  Adding one value and then removing the item at the old length gives
    back the element as it was, whether the value was appended or was
    rejected as a duplicate (then the index is out of range). *)
Theorem addItems_then_removeItem (el : EditableList) (v : string) :
  connected el ->
  (addItems [v];; removeItem (Z.of_nat (length (list_of el)))) el
  = Returned tt el.
Proof.
  intros Hc.
  destruct (connected_inv el Hc) as (attrs & lis & inp & ed & evs & als & ->).
  rewrite list_of_El, length_fmap.
  unfold mbind, M_bind. rewrite addItems_run, removeItem_run.
  rewrite appended_cons. change (appended ?a [] ?l) with l.
  destruct (_ || negb _).
  - rewrite decide_True by (rewrite length_app; simpl; lia).
    rewrite Nat2Z.id.
    assert (pending (lis ++ [_itemHTML v]) (length lis) ed = None) as Hp.
    { apply (pending_None_here _ _ _ v).
      by rewrite lookup_app_r, Nat.sub_diag. }
    rewrite committed_rest by exact Hp.
    rewrite delete_take_drop, take_app_length.
    rewrite drop_ge by (rewrite length_app; simpl; lia).
    by rewrite app_nil_r.
  - by rewrite decide_False by lia.
Qed.

(** ** More about moving and changing items *)

(** X8.  With no edit input in the list, moving an item up and then down
    again, or down and then up again, gives back the element as it was: for
    1 <= index < n, [moveItemUp(index)] then [moveItemDown(index - 1)]; for
    0 <= index < n - 1, [moveItemDown(index)] then [moveItemUp(index + 1)]. *)
Theorem move_there_and_back (el : EditableList) (index : Z) :
  connected el ->
  Forall (fun w => is_text w = true) (wrappers_of el) ->
  ((1 ≤ index < Z.of_nat (length (list_of el)))%Z ->
   (moveItemUp index;; moveItemDown (index - 1)) el = Returned tt el)
  /\ ((0 ≤ index < Z.of_nat (length (list_of el)) - 1)%Z ->
      (moveItemDown index;; moveItemUp (index + 1)) el = Returned tt el).
Proof.
  intros Hc Ht.
  destruct (connected_inv el Hc) as (attrs & lis & inp & ed & evs & als & ->).
  rewrite wrappers_of_El in Ht.
  assert (forall prev,
             Forall (fun w => is_text w = true)
                    (item_wrapper <$> insertBefore (S prev) prev lis)) as Ht'.
  { intros prev. apply inputs_zero. rewrite inputs_insertBefore.
    by apply inputs_zero. }
  rewrite list_of_El, length_fmap. unfold mbind, M_bind. split; intros Hi.
  - rewrite moveItemUp_run. rewrite decide_True by lia.
    destruct (Z.to_nat index) as [|prev] eqn:E; [lia|].
    rewrite committed_rest by (by apply pending_None_text).
    rewrite moveItemDown_run, length_insertBefore.
    rewrite decide_True by lia.
    replace (Z.to_nat (index - 1)) with prev by lia.
    rewrite decide_True by lia.
    rewrite committed_rest by (by apply pending_None_text).
    by rewrite insertBefore_twice.
  - rewrite moveItemDown_run. rewrite decide_True by lia.
    rewrite decide_True by lia.
    rewrite committed_rest by (by apply pending_None_text).
    rewrite moveItemUp_run, length_insertBefore. rewrite decide_True by lia.
    replace (Z.to_nat (index + 1)) with (S (Z.to_nat index)) by lia.
    rewrite committed_rest by (by apply pending_None_text).
    by rewrite insertBefore_twice.
Qed.

(** X9.  With no edit input in the list, [moveItemUp] and [moveItemDown]
    never add, drop or rewrite an item: for any index the list afterwards is
    a permutation of the list before. *)
Theorem moves_permute (el : EditableList) (index : Z) :
  Forall (fun w => is_text w = true) (wrappers_of el) ->
  list_of (after (moveItemUp index el)) ≡ₚ list_of el
  /\ list_of (after (moveItemDown index el)) ≡ₚ list_of el.
Proof.
  intros Ht. destruct el as [attrs [[lis inp]|] ed evs als]; [| by split].
  rewrite wrappers_of_El in Ht.
  rewrite moveItemUp_run, moveItemDown_run. cbn [after]. split.
  - case_decide; [| done]. destruct (Z.to_nat index); [done|].
    rewrite committed_rest by (by apply pending_None_text).
    rewrite !list_of_El.
    apply fmap_Permutation, insertBefore_Permutation.
  - case_decide; [| done]. case_decide; [| done].
    rewrite committed_rest by (by apply pending_None_text).
    rewrite !list_of_El.
    apply fmap_Permutation, insertBefore_Permutation.
Qed.

Lemma written_again allowDuplicates lis li newValue w :
  written allowDuplicates lis li newValue
          (rendered (written allowDuplicates lis li newValue (innerText w)))
  = written allowDuplicates lis li newValue (innerText w).
Proof.
  pose proof (innerText_shown w) as Hw. cbn [innerText] in Hw.
  unfold written. destruct (String.eqb (Js.trim newValue) EmptyString).
  - assert (forall b : bool,
               (if b then innerText w else innerText w) = innerText w) as Hb
      by (by intros []).
    rewrite !Hb, Hw. apply Hb.
  - destruct (negb allowDuplicates && _); [exact Hw | done].
Qed.

Lemma changed_twice allowDuplicates ed index newValue lis :
  changed allowDuplicates ed index newValue
          (changed allowDuplicates ed index newValue lis)
  = changed allowDuplicates ed index newValue lis.
Proof.
  unfold changed at 2.
  destruct (decide (0 ≤ index < Z.of_nat (length lis))%Z) as [Hi|Hi];
    [| reflexivity].
  destruct ed; [reflexivity|].
  destruct (lis !! Z.to_nat index) as [l|] eqn:Hl; [| reflexivity].
  unfold changed. rewrite length_alter, decide_True by done.
  rewrite list_lookup_alter_eq, Hl. simpl.
  rewrite written_alter, written_again, list_alter_alter_eq.
  by rewrite decide_True by done.
Qed.

(** X10.  [changeItem] is idempotent: on a connected element a second call
    with the same index and value changes nothing, whether the first call
    wrote the value, kept the previous text or was ignored. *)
Theorem changeItem_twice (el : EditableList) (index : Z) (newValue : string) :
  connected el ->
  (changeItem index newValue;; changeItem index newValue) el
  = changeItem index newValue el.
Proof.
  intros Hc.
  destruct (connected_inv el Hc) as (attrs & lis & inp & ed & evs & als & ->).
  unfold mbind, M_bind. rewrite !changeItem_run. by rewrite changed_twice.
Qed.

(** ** What the handlers send and change *)

(** X11.  On a connected element [#_valueExists(newValue, item)] returns
    true exactly when some wrapper other than [item] shows [newValue] as its
    text; with [item] null every wrapper counts.  It changes nothing. *)
Theorem _valueExists_finds_other_wrappers (el : EditableList) (newValue : string)
    (item : option nat) :
  connected el ->
  exists found,
    _valueExists newValue item el = Returned found el
    /\ (found = true
        <-> exists j w, wrappers_of el !! j = Some w
                        /\ item ≠ Some j /\ innerText w = newValue).
Proof.
  intros Hc.
  destruct (connected_inv el Hc) as (attrs & lis & inp & ed & evs & als & ->).
  eexists. split; [reflexivity|]. rewrite wrappers_of_El. cbn [item_list].
  apply valueExists_from_true.
Qed.

Lemma written_cases allowDuplicates lis li newValue previousValue :
  let val := written allowDuplicates lis li newValue previousValue in
  let rejected :=
    negb allowDuplicates
    && valueExists_from 0 (item_wrapper <$> lis)
         (if String.eqb (Js.trim newValue) EmptyString then previousValue
          else newValue) (Some li) in
  (val = newValue \/ val = previousValue)
  /\ (rejected = true -> val = previousValue).
Proof.
  cbv zeta. unfold written.
  destruct (String.eqb (Js.trim newValue) EmptyString);
    destruct (negb allowDuplicates && _); naive_solver.
Qed.

(** X12.  Finishing an edit, by Enter or by a blur, writes into the item
    either the typed value or the text it had before, ends the edit, and
    dispatches one edit event, with the previous and the new text, exactly
    when the text changed; when it did, no prompt was shown. *)
Theorem edit_event_when_text_changed (el : EditableList) (e : Event)
    (value previousValue : string) :
  connected el ->
  _editing el = true ->
  wrappers_of el !! target e = Some (EditInput value previousValue) ->
  enterOrNotKeyboard e = true ->
  let r := _itemEditFinished e el in
  let el' := after r in
  returns r
  /\ _editing el' = false
  /\ exists val,
       (val = value \/ val = previousValue)
       /\ wrappers_of el' = <[target e := Text val]> (wrappers_of el)
       /\ (val = previousValue -> dispatched el' = dispatched el)
       /\ (val ≠ previousValue ->
           dispatched el' = dispatched el ++ [editDetail previousValue val]
           /\ alerts el' = alerts el).
Proof.
  intros Hc He Hw Hk.
  destruct (connected_inv el Hc) as (attrs & lis & inp & ed & evs & als & ->).
  cbn [_editing] in He. subst ed.
  rewrite wrappers_of_El, list_lookup_fmap in Hw.
  destruct (lis !! target e) as [l|] eqn:Hl; [| discriminate].
  injection Hw as Hw. cbv zeta.
  rewrite (_itemEditFinished_run _ _ _ _ _ _ l value previousValue Hk Hl Hw).
  cbv zeta. cbn [after returns _editing dispatched alerts].
  set (a := allowDuplicatesOf _).
  destruct (written_cases a lis (target e) value previousValue) as [Hv Hr].
  set (val := written a lis (target e) value previousValue) in *.
  split; [exact I|]. split; [reflexivity|]. exists val.
  split; [exact Hv|]. split.
  { rewrite !wrappers_of_El, list_insert_alter. apply wrappers_alter. }
  split.
  - intros ->. rewrite String.eqb_refl. simpl. by rewrite app_nil_r.
  - intros Hne. apply String.eqb_neq in Hne as Hne'. rewrite Hne'. simpl.
    split; [reflexivity|].
    destruct (negb a && _); [| by rewrite app_nil_r].
    by destruct Hne; apply Hr.
Qed.

Lemma selected_of_El attrs lis inp ed evs als :
  selected_of (El attrs lis inp ed evs als) = selected <$> lis.
Proof. reflexivity. Qed.

Lemma selected_cleaned (lis : list Li) :
  selected <$> ((fun l => mkLi (item_wrapper l) false) <$> lis)
  = replicate (length lis) false.
Proof.
  rewrite <- list_fmap_compose. rewrite <- (length_fmap item_wrapper).
  induction lis as [|l lis IH]; simpl; [done | by f_equal].
Qed.

Lemma selected_lastSelected (lis : list Li) x :
  selected <$> lastSelected (lis ++ [x]) = replicate (length lis) false ++ [true].
Proof.
  unfold lastSelected. rewrite fmap_app.
  replace (pred (length (lis ++ [x])))
    with (length ((fun l => mkLi (item_wrapper l) false) <$> lis) + 0)
    by (rewrite length_app, length_fmap; simpl; lia).
  rewrite alter_app_r, fmap_app, selected_cleaned. reflexivity.
Qed.

(** X13.  The add handler, fired by Enter or by a click with a typed value
    that is not blank and, when allow-duplicates is "false", is not the text
    of any item: the value becomes the last item, one add event with
    previous null and the value as new is dispatched, no prompt is shown,
    the add input is emptied, and the new item is the only selected one. *)
Theorem add_handler_appends (el : EditableList) (v : string) (e : Event) :
  connected el ->
  enterOrNotKeyboard e = true ->
  Js.trim v ≠ EmptyString ->
  (duplicates_disallowed el -> v ∉ innerText <$> wrappers_of el) ->
  let r := (typeNewItem v;; _addListItem e) el in
  let el' := after r in
  returns r
  /\ list_of el' = list_of el ++ [v]
  /\ dispatched el' = dispatched el ++ [addDetail v]
  /\ alerts el' = alerts el
  /\ add_input_of el' = EmptyString
  /\ selected_of el' = replicate (length (list_of el)) false ++ [true].
Proof.
  intros Hc He Hb Hd.
  destruct (connected_inv el Hc) as (attrs & lis & inp & ed & evs & als & ->).
  unfold duplicates_disallowed in Hd. cbn [attributes] in Hd.
  rewrite wrappers_of_El in Hd. cbv zeta.
  unfold mbind, M_bind, typeNewItem, set_add_input. run.
  rewrite _addListItem_run, He. apply String.eqb_neq in Hb. rewrite Hb.
  cbn [negb andb].
  assert (negb (allowDuplicatesOf (lookup_attribute "allow-duplicates" attrs))
          && valueExists_from 0 (item_wrapper <$> lis) v None = false) as ->.
  { destruct (lookup_attribute "allow-duplicates" attrs) as [s|] eqn:Ea;
      [| reflexivity].
    simpl. destruct (String.eqb s "false") eqn:Es; [| reflexivity]. simpl.
    apply String.eqb_eq in Es. subst s.
    apply not_true_is_false. rewrite valueExists_from_None. by apply Hd. }
  split; [exact I|]. split; [| split; [reflexivity|]].
  - change (item_of <$> lastSelected (lis ++ [_itemHTML v])
            = (item_of <$> lis) ++ [v]).
    unfold item_of.
    rewrite (through_wrappers (fun w => _decodeHtml (innerHTML w)) _ _
               (item_of_lastSelected _)).
    by rewrite fmap_app.
  - split; [reflexivity|]. split; [reflexivity|].
    change (selected <$> lastSelected (lis ++ [_itemHTML v])
            = replicate (length (item_of <$> lis)) false ++ [true]).
    by rewrite selected_lastSelected, length_fmap.
Qed.

(** X14.  The add handler does nothing at all, on any element, for a key
    other than Enter; and nothing on a connected element whose add input is
    blank. *)
Theorem add_handler_ignores (el : EditableList) (e : Event) :
  (enterOrNotKeyboard e = false -> _addListItem e el = Returned tt el)
  /\ (connected el -> Js.trim (add_input_of el) = EmptyString ->
      _addListItem e el = Returned tt el).
Proof.
  split.
  - intros He. unfold _addListItem. by rewrite He.
  - intros Hc Hb.
    destruct (connected_inv el Hc) as (attrs & lis & inp & ed & evs & als & ->).
    cbn [add_input_of shadowRoot add_new_list_item_input] in Hb.
    rewrite _addListItem_run, Hb. simpl. by rewrite andb_false_r.
Qed.

(** X15.  A click on the Remove button of an item that is not being edited
    removes that item and dispatches one remove event whose previous is the
    item's value and whose new is null; nothing else is sent. *)
Theorem remove_handler_removes (el : EditableList) (e : Event) (item : string) :
  connected el ->
  wrappers_of el !! target e = Some (Text item) ->
  let r := _removeListItemHandler e el in
  let el' := after r in
  returns r
  /\ list_of el' = delete (target e) (list_of el)
  /\ dispatched el' = dispatched el ++ [removeDetail item]
  /\ alerts el' = alerts el.
Proof.
  intros Hc Hi.
  destruct (connected_inv el Hc) as (attrs & lis & inp & ed & evs & als & ->).
  rewrite wrappers_of_El, list_lookup_fmap in Hi.
  pose proof (pending_None_here lis (target e) ed item Hi) as Hp.
  destruct (lis !! target e) as [l|] eqn:Hl; [| discriminate].
  injection Hi as Hi. cbv zeta.
  rewrite (_removeListItemHandler_run _ _ _ _ _ _ _ l Hl).
  unfold commit_events, commit_alerts. rewrite Hp, !app_nil_r.
  cbn [after returns dispatched alerts].
  split; [exact I|]. split; [| split; [| done]].
  - rewrite !list_of_El. apply list_fmap_delete.
  - unfold item_of. by rewrite Hi.
Qed.

(** X16.  With no edit input in the list, a click on Move up moves the item
    as [moveItemUp] does and dispatches one move event with direction up and
    the moved item's value; on the first item nothing moves and nothing is
    dispatched.  Move down does the same downwards, and nothing on the last
    item. *)
Theorem move_handlers_report_the_moved_item (el : EditableList) (e : Event)
    (item : string) :
  connected el ->
  Forall (fun w => is_text w = true) (wrappers_of el) ->
  list_of el !! target e = Some item ->
  (let r := _moveUpListItemEvent e el in
   returns r
   /\ list_of (after r) = list_of (after (moveItemUp (Z.of_nat (target e)) el))
   /\ dispatched (after r)
      = dispatched el
        ++ (if decide (target e = 0) then [] else [moveDetail "up" item]))
  /\ (let r := _moveDownListItemEvent e el in
      returns r
      /\ list_of (after r)
         = list_of (after (moveItemDown (Z.of_nat (target e)) el))
      /\ dispatched (after r)
         = dispatched el
           ++ (if decide (S (target e) < length (list_of el))
               then [moveDetail "down" item] else [])).
Proof.
  intros Hc Ht Hi.
  destruct (connected_inv el Hc) as (attrs & lis & inp & ed & evs & als & ->).
  rewrite wrappers_of_El in Ht.
  rewrite list_of_El, list_lookup_fmap in Hi.
  destruct (lis !! target e) as [l|] eqn:Hl; [| discriminate].
  injection Hi as <-. pose proof (lookup_lt_Some _ _ _ Hl) as Hlt.
  rewrite moveItemUp_run, moveItemDown_run.
  destruct (decide (0 ≤ Z.of_nat (target e) < Z.of_nat (length lis))%Z);
    [| lia].
  rewrite Nat2Z.id. cbv zeta. split.
  - destruct (target e) as [|prev] eqn:Et.
    + rewrite _moveUpListItemEvent_first by (done || lia).
      cbn [after returns dispatched].
      split; [exact I|]. split; [reflexivity | by rewrite app_nil_r].
    + assert (commit_lis attrs lis (S prev) ed !! S prev = Some l) as Hl'.
      { unfold commit_lis. by rewrite pending_None_text. }
      rewrite (_moveUpListItemEvent_run _ _ _ _ _ _ _ prev l Et Hl').
      rewrite committed_rest by (by apply pending_None_text).
      unfold commit_lis, commit_events. rewrite pending_None_text by done.
      rewrite app_nil_r. by repeat split.
  - rewrite list_of_El, length_fmap.
    destruct (decide (S (target e) < length lis)) as [Hn|Hn].
    + rewrite (_moveDownListItemEvent_run _ _ _ _ _ _ _ l Hl Hn).
      rewrite committed_rest by (by apply pending_None_text).
      unfold commit_lis, commit_events. rewrite pending_None_text by done.
      rewrite app_nil_r. by repeat split.
    + rewrite _moveDownListItemEvent_last by done.
      cbn [after returns dispatched].
      split; [exact I|]. split; [reflexivity | by rewrite app_nil_r].
Qed.

(** X17.  A click on an item leaves that item as the only selected one, and
    [unselectAllItems] leaves none selected; neither changes the list. *)
Theorem selection_is_single (el : EditableList) (e : Event) :
  connected el ->
  target e < length (list_of el) ->
  (let r := _liSelected e el in
   returns r
   /\ selected_of (after r)
      = <[target e := true]> (replicate (length (list_of el)) false)
   /\ list_of (after r) = list_of el)
  /\ (let r := unselectAllItems el in
      returns r
      /\ selected_of (after r) = replicate (length (list_of el)) false
      /\ list_of (after r) = list_of el).
Proof.
  intros Hc Hlt.
  destruct (connected_inv el Hc) as (attrs & lis & inp & ed & evs & als & ->).
  rewrite list_of_El, length_fmap in *. cbv zeta. split.
  - unfold _liSelected, _cleanSelection. run. rewrite length_fmap.
    rewrite decide_True by done. split; [exact I|]. split.
    + rewrite selected_of_El, list_insert_alter, <- selected_cleaned.
      apply list_fmap_alter. by apply Forall_true.
    + rewrite (through_wrappers (fun w => _decodeHtml (innerHTML w)) _ _
                 (wrappers_select true _ _)).
      by rewrite (through_wrappers (fun w => _decodeHtml (innerHTML w)) _ _
                    (wrappers_reselected (fun _ => false) _)).
  - unfold unselectAllItems, _cleanSelection. run.
    split; [exact I|]. split.
    + by rewrite selected_of_El, selected_cleaned.
    + by rewrite (through_wrappers (fun w => _decodeHtml (innerHTML w)) _ _
                    (wrappers_reselected (fun _ => false) _)).
Qed.

(** ** The editing flag *)

(** X18.  While an item is being edited [items()] reports, in the place of
    that item, the markup of the edit input: starting an edit on a connected
    element with no edit in progress sets [_editing], puts into the wrapper
    an input that holds the item's text as value and as previous value, and
    leaves every other item as it was. *)
Theorem items_while_editing (el : EditableList) (e : Event) (w : ItemWrapper) :
  connected el ->
  _editing el = false ->
  wrappers_of el !! target e = Some w ->
  let r := _itemEdit e el in
  let el' := after r in
  returns r
  /\ _editing el' = true
  /\ wrappers_of el'
     = <[target e := EditInput (innerText w) (innerText w)]> (wrappers_of el)
  /\ list_of el' = <[target e := edit_input_html]> (list_of el).
Proof.
  intros Hc He Hw.
  destruct (connected_inv el Hc) as (attrs & lis & inp & ed & evs & als & ->).
  cbn [_editing] in He. subst ed.
  rewrite wrappers_of_El, list_lookup_fmap in Hw.
  destruct (lis !! target e) as [l|] eqn:Hl; [| discriminate].
  injection Hw as <-. cbv zeta.
  rewrite (_itemEdit_run _ _ _ _ _ _ l Hl). cbn [after returns _editing].
  split; [exact I|]. split; [reflexivity|]. split.
  - rewrite !wrappers_of_El, list_insert_alter. apply wrappers_alter.
  - rewrite !list_of_El, list_insert_alter.
    apply list_fmap_alter. by apply Forall_true.
Qed.

(** X19.  While [_editing] is set, a double click starts no second edit and
    [changeItem] changes nothing: both return and leave the element as it
    is. *)
Theorem editing_blocks_edits (el : EditableList) :
  connected el ->
  _editing el = true ->
  (forall e, _itemEdit e el = Returned tt el)
  /\ (forall index newValue, changeItem index newValue el = Returned tt el).
Proof.
  intros Hc He.
  destruct (connected_inv el Hc) as (attrs & lis & inp & ed & evs & als & ->).
  cbn [_editing] in He. subst ed. split; [reflexivity|].
  intros index newValue. rewrite changeItem_run. unfold changed.
  by case_decide.
Qed.

Lemma written_same allowDuplicates lis li t :
  written allowDuplicates lis li t t = t.
Proof.
  unfold written.
  by destruct (String.eqb _ _), (negb allowDuplicates && _).
Qed.

Lemma editInput_from_alter i (lis : list Li) li value previousValue :
  Forall (fun w => is_text w = true) (item_wrapper <$> lis) ->
  li < length lis ->
  editInput_from i
    (alter (set_item_wrapper (EditInput value previousValue)) li lis)
  = Some (i + li).
Proof.
  revert i li. induction lis as [|l lis IH]; intros i li Ht Hlt;
    simpl in Hlt; [lia|].
  rewrite fmap_cons in Ht. apply Forall_cons in Ht as [Hl Ht].
  destruct li as [|li]; simpl.
  - by rewrite Nat.add_0_r.
  - change (list_alter ?f li lis) with (alter f li lis).
    destruct (item_wrapper l); [| discriminate].
    rewrite IH by (done || lia). f_equal. lia.
Qed.

Lemma delete_alter {A} (f : A -> A) (li : nat) (l : list A) :
  delete li (alter f li l) = delete li l.
Proof. rewrite !delete_take_drop, take_alter_ge, drop_alter_lt by lia. done. Qed.


Lemma locked_El attrs lis inp ed evs als :
  locked (El attrs lis inp ed evs als)
  <-> ed = true /\ inputs (item_wrapper <$> lis) = 0.
Proof.
  unfold locked. rewrite wrappers_of_El, inputs_zero. cbn [_editing].
  split; [by intros (_ & -> & H) | intros [-> H]].
  split; [by eexists | done].
Qed.

(** X21.  An element left with [_editing] set and no edit input stays so:
    no call of a public mutator, no gesture and no typing clears the flag
    or brings an input back, so from then on no item can be edited, by the
    user or by [changeItem]. *)
Theorem locked_stays_locked (el : EditableList) (s : Step) :
  locked el -> locked (after (step s el)).
Proof.
  intros Hl. pose proof Hl as (Hc & _).
  destruct (connected_inv el Hc) as (attrs & lis & inp & ed & evs & als & ->).
  apply locked_El in Hl as [-> H0].
  assert (forall lis' inp' evs' als',
             inputs (item_wrapper <$> lis') <= inputs (item_wrapper <$> lis) ->
             locked (El attrs lis' inp' true evs' als')) as Hok.
  { intros lis' inp' evs' als' Hle. apply locked_El. split; [done | lia]. }
  assert (Forall (fun w => is_text w = true) (item_wrapper <$> lis)) as Ht
    by (by apply inputs_zero).
  assert (forall lis0 inp0 evs0 als0 e,
             item_wrapper <$> lis0 = item_wrapper <$> lis ->
             locked (after (_addListItem e (El attrs lis0 inp0 true evs0 als0))))
    as Hadd.
  { intros lis0 inp0 evs0 als0 e E. rewrite _addListItem_run.
    destruct (enterOrNotKeyboard e && _); [| apply Hok; by rewrite E].
    destruct (negb _ && _).
    - rewrite committed_rest by (apply pending_None_text; by rewrite E).
      cbn [after id]. apply Hok. by rewrite E.
    - apply Hok. rewrite item_of_lastSelected, fmap_app, inputs_app, E.
      unfold inputs at 2. simpl. lia. }
  destruct s as [c|g|text|li text|].
  - destruct c; cbn [step call].
    + rewrite addItems_run. apply Hok. by rewrite inputs_appended.
    + rewrite changeItem_run. apply Hok. unfold changed. by case_decide.
    + rewrite removeItem_run. case_decide; [| by apply Hok].
      rewrite committed_rest by (by apply pending_None_text).
      apply Hok. rewrite list_fmap_delete. apply inputs_delete.
    + rewrite moveItemUp_run. case_decide; [| by apply Hok].
      destruct (Z.to_nat index); [by apply Hok|].
      rewrite committed_rest by (by apply pending_None_text).
      apply Hok. by rewrite inputs_insertBefore.
    + rewrite moveItemDown_run. case_decide; [| by apply Hok].
      case_decide; [| by apply Hok].
      rewrite committed_rest by (by apply pending_None_text).
      apply Hok. by rewrite inputs_insertBefore.
    + rewrite removeAllItems_run.
      rewrite committed_rest by (by apply pending_None_text).
      apply Hok. unfold inputs. simpl. lia.
  - destruct g; cbn [step handle].
    + destruct (kind e); [by apply Hadd|].
      unfold mbind, M_bind, _cleanSelection. run.
      apply Hadd. apply (wrappers_reselected (fun _ => false)).
    + unfold _liSelected, _cleanSelection. run. rewrite length_fmap.
      case_decide; apply Hok.
      * by rewrite wrappers_select, (wrappers_reselected (fun _ => false)).
      * by rewrite (wrappers_reselected (fun _ => false)).
    + by apply Hok.
    + destruct (enterOrNotKeyboard e) eqn:He.
      2:{ unfold _itemEditFinished.
          unfold mbind at 1, M_bind at 1, get_editing at 1. simpl. rewrite He.
          by apply Hok. }
      destruct (lis !! target e) as [l|] eqn:Hl.
      2:{ unfold _itemEditFinished.
          unfold mbind at 1, M_bind at 1, get_editing at 1. simpl. rewrite He.
          run. rewrite decide_False by (apply lookup_ge_None in Hl; lia).
          by apply Hok. }
      destruct (item_wrapper l) as [t|value previousValue] eqn:Hw.
      { unfold _itemEditFinished.
        unfold mbind at 1, M_bind at 1, get_editing at 1. simpl. rewrite He.
        run. rewrite decide_True by (by apply lookup_lt_Some in Hl).
        rewrite Hl, Hw. by apply Hok. }
      rewrite Forall_fmap in Ht. pose proof (Forall_lookup_1 _ _ _ _ Ht Hl) as Hx.
      simpl in Hx. rewrite Hw in Hx. discriminate Hx.
    + destruct (lis !! target e) as [l|] eqn:Hl.
      2:{ unfold _removeListItemHandler. unfold mbind at 1, M_bind at 1.
          rewrite _getLi_outside by done. by apply Hok. }
      rewrite (_removeListItemHandler_run _ _ _ _ _ _ _ l Hl).
      unfold commit_editing. rewrite pending_None_text by done.
      apply Hok. rewrite list_fmap_delete. apply inputs_delete.
    + destruct (lis !! target e) as [l|] eqn:Hl.
      2:{ unfold _moveUpListItemEvent. unfold mbind at 1, M_bind at 1.
          rewrite _getLi_outside by done. by apply Hok. }
      pose proof (lookup_lt_Some _ _ _ Hl) as Hlt.
      destruct (target e) as [|prev] eqn:Et.
      { rewrite _moveUpListItemEvent_first by (done || lia). by apply Hok. }
      assert (commit_lis attrs lis (S prev) true !! S prev = Some l) as Hl'.
      { unfold commit_lis. by rewrite pending_None_text. }
      rewrite (_moveUpListItemEvent_run _ _ _ _ _ _ _ prev l Et Hl').
      unfold commit_lis, commit_editing. rewrite pending_None_text by done.
      apply Hok. by rewrite inputs_insertBefore.
    + destruct (lis !! target e) as [l|] eqn:Hl.
      2:{ unfold _moveDownListItemEvent. unfold mbind at 1, M_bind at 1.
          rewrite _getLi_outside by done. by apply Hok. }
      destruct (decide (S (target e) < length lis)) as [Hn|Hn].
      * rewrite (_moveDownListItemEvent_run _ _ _ _ _ _ _ l Hl Hn).
        unfold commit_lis, commit_editing. rewrite pending_None_text by done.
        apply Hok. by rewrite inputs_insertBefore.
      * rewrite _moveDownListItemEvent_last
          by (done || by apply lookup_lt_Some in Hl).
        by apply Hok.
  - by apply Hok.
  - cbn [step]. unfold typeEdit. run.
    destruct (lis !! li) as [l|] eqn:Hl; [| by apply Hok].
    destruct (item_wrapper l) as [t|value previousValue] eqn:Hw;
      [by apply Hok|].
    rewrite Forall_fmap in Ht. pose proof (Forall_lookup_1 _ _ _ _ Ht Hl) as Hx.
    simpl in Hx. rewrite Hw in Hx. discriminate Hx.
  - simpl. unfold unselectAllItems, _cleanSelection. run.
    apply Hok. by rewrite (wrappers_reselected (fun _ => false)).
Qed.

(** X22.  [#_valueExists] reads the text the wrappers show, and the wrapper
    of an item under edit shows none.  So with allow-duplicates "false",
    for an item whose text is not empty and is shown by no other item,
    [addItems] called during the edit of that item with that text appends
    it; the edit, finished by Enter or blur with the value untouched, is
    then rejected as a duplicate, the prompt is shown, no event is
    dispatched, and the text is put back: the list ends with the text
    twice. *)
Theorem addItems_during_an_edit (el : EditableList) (e e' : Event)
    (w : ItemWrapper) :
  connected el ->
  duplicates_disallowed el ->
  _editing el = false ->
  wrappers_of el !! target e = Some w ->
  innerText w ≠ EmptyString ->
  (forall j w', wrappers_of el !! j = Some w' -> j ≠ target e ->
                innerText w' ≠ innerText w) ->
  target e' = target e ->
  enterOrNotKeyboard e' = true ->
  let t := innerText w in
  let r := editInterrupted e [t] e' el in
  let el' := after r in
  returns r
  /\ list_of el' = <[target e := t]> (list_of el) ++ [t]
  /\ alerts el' = alerts el ++ prompt_shown (attributes el)
  /\ dispatched el' = dispatched el.
Proof.
  intros Hc Hd He Hw Hne Ho Htg Hk.
  destruct (connected_inv el Hc) as (attrs & lis & inp & ed & evs & als & ->).
  unfold duplicates_disallowed in Hd. cbn [attributes _editing] in *. subst ed.
  rewrite wrappers_of_El in Hw, Ho. rewrite list_lookup_fmap in Hw.
  destruct (lis !! target e) as [l|] eqn:Hl; [| discriminate].
  injection Hw as Hw. pose proof (lookup_lt_Some _ _ _ Hl) as Hlt.
  set (t := innerText w) in *.
  set (l1 := set_item_wrapper (EditInput t t) l).
  set (lis1 := alter (set_item_wrapper (EditInput t t)) (target e) lis).
  set (lis2 := lis1 ++ [_itemHTML t]).
  assert (editInterrupted e [t] e' (El attrs lis inp false evs als)
          = Returned tt
              (El attrs (alter (set_item_wrapper (Text t)) (target e) lis2)
                  inp false evs (als ++ prompt_shown attrs))) as Hrun.
  { unfold editInterrupted. unfold mbind at 1, M_bind at 1.
    rewrite (_itemEdit_run _ _ _ _ _ _ l Hl). rewrite Hw. fold t. fold lis1.
    assert (lis1 !! target e = Some l1) as Hl1.
    { unfold lis1. by rewrite list_lookup_alter_eq, Hl. }
    assert (valueExists_from 0 (item_wrapper <$> lis1) t None = false) as Hv.
    { apply not_true_is_false. intros Hx.
      apply valueExists_from_true in Hx as (j & w' & Hj & _ & Hw').
      rewrite list_lookup_fmap in Hj.
      destruct (decide (j = target e)) as [->|Hjt].
      - rewrite Hl1 in Hj. injection Hj as <-. simpl in Hw'. congruence.
      - unfold lis1 in Hj. rewrite list_lookup_alter_ne in Hj by done.
        rewrite <- list_lookup_fmap in Hj. by apply (Ho j w' Hj Hjt). }
    unfold mbind at 1, M_bind at 1. rewrite addItems_run, Hd.
    change (allowDuplicatesOf (Some "false")) with false.
    rewrite appended_cons, Hv. change (appended false [] ?x) with x.
    cbn [orb negb]. fold lis2.
    assert (lis2 !! target e' = Some l1) as Hl2.
    { unfold lis2. rewrite Htg. by apply lookup_app_l_Some. }
    rewrite (_itemEditFinished_run _ _ _ _ _ _ l1 t t Hk Hl2 eq_refl), Hd.
    change (allowDuplicatesOf (Some "false")) with false.
    cbv zeta. cbn [negb andb]. rewrite written_same.
    assert (valueExists_from 0 (item_wrapper <$> lis2)
              (if String.eqb (Js.trim t) EmptyString then t else t)
              (Some (target e')) = true) as ->.
    { replace (if String.eqb (Js.trim t) EmptyString then t else t) with t
        by (by destruct (String.eqb _ _)).
      apply valueExists_from_true. exists (length lis1), (Text t).
      split; [| split; [| apply innerText_shown]].
      - unfold lis2. rewrite fmap_app, lookup_app_r by (by rewrite length_fmap).
        by rewrite length_fmap, Nat.sub_diag.
      - unfold lis1. rewrite length_alter, Htg. simpl. intros [= E]. lia. }
    rewrite String.eqb_refl, Htg. cbn [negb]. by rewrite app_nil_r. }
  cbv zeta. rewrite Hrun. cbn [after returns alerts dispatched attributes].
  split; [exact I|]. split; [| by split].
  rewrite list_of_El, item_of_alter. unfold lis2, lis1.
  rewrite fmap_app.
  rewrite (list_fmap_alter item_of _ (fun _ => edit_input_html))
    by (by apply Forall_true).
  rewrite <- list_insert_alter.
  rewrite insert_app_l by (by rewrite length_insert, length_fmap).
  by rewrite list_insert_insert_eq, list_of_El.
Qed.

(** ** Double taps and toolbars *)

(** X23.  Two taps on a wrapper, the first on a fresh handler at a time of
    at least 500 ms: the first tap never starts an edit, and the second
    starts one, as a double click does, exactly when it comes more than 0
    and less than 500 ms after the first; the handler is left with the time
    of the second tap. *)
Theorem two_taps_edit_when_close (el : EditableList) (e : Event)
    (time1 time2 : Z) :
  (500 ≤ time1)%Z ->
  detectDoubleTap 0 time1 e el = Returned time1 el
  /\ twoTaps time1 time2 e el
     = if decide (0 < time2 - time1 < 500)%Z
       then (_itemEdit e;; mret time2) el
       else Returned time2 el.
Proof.
  intros H1.
  assert (detectDoubleTap 0 time1 e el = Returned time1 el) as E1.
  { unfold detectDoubleTap. cbv zeta. rewrite decide_False by lia.
    reflexivity. }
  split; [exact E1|].
  unfold twoTaps. unfold mbind at 1, M_bind at 1. rewrite E1.
  unfold detectDoubleTap. cbv zeta.
  destruct (decide (0 < time2 - time1 < 500)%Z).
  - by rewrite decide_True by lia.
  - by rewrite decide_False by lia.
Qed.

Lemma toolbarVisibilities_lookup len i :
  i < len -> toolbarVisibilities len !! i = Some (toolbarVisibility len i).
Proof.
  intros H. unfold toolbarVisibilities.
  by rewrite list_lookup_fmap, lookup_seq_lt.
Qed.

(** X24.  [#_updateToolbars] writes one pair of visibilities per item; it
    hides Move up on the first item only and Move down on the last item
    only, and these are exactly the buttons whose click moves nothing and
    dispatches nothing: a click on a button written visible always
    dispatches a move event. *)
Theorem hidden_buttons_are_the_idle_ones (el : EditableList) (e : Event) :
  connected el ->
  target e < length (list_of el) ->
  length (toolbarVisibilities (length (list_of el))) = length (list_of el)
  /\ exists up down,
       toolbarVisibilities (length (list_of el)) !! target e = Some (up, down)
       /\ (up = "hidden" <-> target e = 0)
       /\ (down = "hidden" <-> S (target e) = length (list_of el))
       /\ (up = "visible"
           <-> dispatched (after (_moveUpListItemEvent e el)) ≠ dispatched el)
       /\ (down = "visible"
           <-> dispatched (after (_moveDownListItemEvent e el)) ≠ dispatched el).
Proof.
  intros Hc Hlt.
  destruct (connected_inv el Hc) as (attrs & lis & inp & ed & evs & als & ->).
  rewrite list_of_El, length_fmap in *.
  destruct (lookup_lt_is_Some_2 lis (target e) Hlt) as [l Hl].
  split; [unfold toolbarVisibilities; by rewrite length_fmap, length_seq|].
  eexists _, _. split; [by apply toolbarVisibilities_lookup|].
  unfold toolbarVisibility.
  assert (forall (a b : list Js.object) x, (a ++ b) ++ [x] ≠ a) as Hne.
  { intros a b x E. apply (f_equal length) in E. rewrite !length_app in E.
    simpl in E. lia. }
  split; [| split; [| split]].
  - destruct (Nat.eqb_spec (target e) 0); split; (done || lia).
  - destruct (Nat.eqb_spec (target e) (length lis - 1)); split; (done || lia).
  - destruct (target e) as [|prev] eqn:Et.
    + rewrite _moveUpListItemEvent_first by (done || lia).
      cbn [Nat.eqb after]. split; done.
    + destruct (lookup_lt_is_Some_2 (commit_lis attrs lis (S prev) ed) (S prev))
        as [l' Hl']; [by rewrite length_commit_lis|].
      rewrite (_moveUpListItemEvent_run _ _ _ _ _ _ _ prev l' Et Hl').
      cbn [Nat.eqb after dispatched]. split; [intros _; apply Hne | done].
  - destruct (decide (S (target e) < length lis)) as [Hn|Hn].
    + rewrite (_moveDownListItemEvent_run _ _ _ _ _ _ _ l Hl Hn).
      cbn [after dispatched].
      destruct (Nat.eqb_spec (target e) (length lis - 1)); [lia|].
      split; [intros _; apply Hne | done].
    + rewrite _moveDownListItemEvent_last by done. cbn [after].
      destruct (Nat.eqb_spec (target e) (length lis - 1)); [| lia].
      split; done.
Qed.

(** ** The further properties at sample elements *)

Lemma two_colors_editing_connected : connected two_colors_editing.
Proof. by eexists. Qed.

Lemma methods_throw_before_connection_witness :
  shadowRoot two_colors_markup = None
  /\ (forall c, call c two_colors_markup = Threw Js.TypeError two_colors_markup)
  /\ items two_colors_markup = Threw Js.TypeError two_colors_markup
  /\ unselectAllItems two_colors_markup = Threw Js.TypeError two_colors_markup.
Proof.
  split; [reflexivity|].
  exact (methods_throw_before_connection two_colors_markup eq_refl).
Defined.

Lemma connectedCallback_twice_throws_witness :
  connected two_colors
  /\ connectedCallback two_colors = Threw Js.NotSupportedError two_colors.
Proof.
  split; [exact two_colors_connected|].
  exact (connectedCallback_twice_throws two_colors two_colors_connected).
Defined.

Lemma addItems_in_two_calls_witness :
  connected two_colors
  /\ (addItems ["blue"];; addItems ["red"; "pink"]) two_colors
     = addItems (["blue"] ++ ["red"; "pink"]) two_colors.
Proof.
  split; [exact two_colors_connected|].
  exact (addItems_in_two_calls two_colors ["blue"] ["red"; "pink"]
           two_colors_connected).
Defined.

Lemma addItems_only_appends_witness :
  connected two_colors
  /\ exists k,
       list_of (after (addItems ["blue"; "red"] two_colors))
       = list_of two_colors ++ k
       /\ k `sublist_of` ["blue"; "red"].
Proof.
  split; [exact two_colors_connected|].
  exact (addItems_only_appends two_colors ["blue"; "red"] two_colors_connected).
Defined.

Lemma addItems_twice_witness :
  connected two_colors
  /\ duplicates_disallowed two_colors
  /\ Forall shown_as_written ["blue"; "red"]
  /\ (addItems ["blue"; "red"];; addItems ["blue"; "red"]) two_colors
     = addItems ["blue"; "red"] two_colors.
Proof.
  assert (Forall shown_as_written ["blue"; "red"]) as Hr
    by (repeat constructor).
  split; [exact two_colors_connected|]. split; [reflexivity|].
  split; [exact Hr|].
  exact (addItems_twice two_colors ["blue"; "red"] two_colors_connected
           eq_refl Hr).
Defined.

Lemma addItems_then_removeItem_witness :
  connected two_colors
  /\ (addItems ["blue"];; removeItem (Z.of_nat (length (list_of two_colors))))
       two_colors
     = Returned tt two_colors.
Proof.
  split; [exact two_colors_connected|].
  exact (addItems_then_removeItem two_colors "blue" two_colors_connected).
Defined.

Lemma move_there_and_back_witness :
  connected two_colors
  /\ Forall (fun w => is_text w = true) (wrappers_of two_colors)
  /\ (moveItemUp 1;; moveItemDown (1 - 1)) two_colors = Returned tt two_colors
  /\ (moveItemDown 0;; moveItemUp (0 + 1)) two_colors = Returned tt two_colors.
Proof.
  split; [exact two_colors_connected|]. split; [exact two_colors_texts|].
  split.
  - apply (proj1 (move_there_and_back two_colors 1 two_colors_connected
                    two_colors_texts)).
    vm_compute. split; [discriminate | reflexivity].
  - apply (proj2 (move_there_and_back two_colors 0 two_colors_connected
                    two_colors_texts)).
    vm_compute. split; [discriminate | reflexivity].
Defined.

Lemma moves_permute_witness :
  Forall (fun w => is_text w = true) (wrappers_of two_colors)
  /\ list_of (after (moveItemUp 1 two_colors)) ≡ₚ list_of two_colors
  /\ list_of (after (moveItemDown 0 two_colors)) ≡ₚ list_of two_colors.
Proof.
  split; [exact two_colors_texts|]. split.
  - exact (proj1 (moves_permute two_colors 1 two_colors_texts)).
  - exact (proj2 (moves_permute two_colors 0 two_colors_texts)).
Defined.

Lemma changeItem_twice_witness :
  connected two_colors
  /\ (changeItem 0 "green";; changeItem 0 "green") two_colors
     = changeItem 0 "green" two_colors.
Proof.
  split; [exact two_colors_connected|].
  exact (changeItem_twice two_colors 0 "green" two_colors_connected).
Defined.

Lemma _valueExists_finds_other_wrappers_witness :
  connected two_colors
  /\ exists found,
       _valueExists "red" (Some 0) two_colors = Returned found two_colors
       /\ (found = true
           <-> exists j w, wrappers_of two_colors !! j = Some w
                           /\ Some 0 ≠ Some j /\ innerText w = "red").
Proof.
  split; [exact two_colors_connected|].
  exact (_valueExists_finds_other_wrappers two_colors "red" (Some 0)
           two_colors_connected).
Defined.

Lemma edit_event_when_text_changed_witness :
  connected two_colors_editing
  /\ _editing two_colors_editing = true
  /\ wrappers_of two_colors_editing !! 0 = Some (EditInput "blue" "red")
  /\ dispatched (after (_itemEditFinished (mkEvent (KeyboardEvent "Enter") 0)
                                          two_colors_editing))
     = [editDetail "red" "blue"].
Proof.
  split; [exact two_colors_editing_connected|]. split; [reflexivity|].
  split; [reflexivity|].
  destruct (edit_event_when_text_changed two_colors_editing
              (mkEvent (KeyboardEvent "Enter") 0) "blue" "red"
              two_colors_editing_connected eq_refl eq_refl eq_refl)
    as (_ & _ & val & _ & _ & _ & _).
  reflexivity.
Defined.

Lemma add_handler_appends_witness :
  connected two_colors
  /\ enterOrNotKeyboard (mkEvent (KeyboardEvent "Enter") 0) = true
  /\ Js.trim "blue" ≠ EmptyString
  /\ list_of (after ((typeNewItem "blue";;
                      _addListItem (mkEvent (KeyboardEvent "Enter") 0))
                       two_colors))
     = list_of two_colors ++ ["blue"].
Proof.
  assert (Js.trim "blue" ≠ EmptyString) as Hb by (vm_compute; discriminate).
  split; [exact two_colors_connected|]. split; [reflexivity|].
  split; [exact Hb|].
  refine (proj1 (proj2 (add_handler_appends two_colors "blue"
                          (mkEvent (KeyboardEvent "Enter") 0)
                          two_colors_connected eq_refl Hb _))).
  intros _ H. vm_compute in H.
  apply elem_of_cons in H as [H|H]; [discriminate H|].
  apply elem_of_cons in H as [H|H]; [discriminate H | by inversion H].
Defined.

Lemma add_handler_ignores_witness :
  enterOrNotKeyboard (mkEvent (KeyboardEvent "a") 0) = false
  /\ _addListItem (mkEvent (KeyboardEvent "a") 0) two_colors
     = Returned tt two_colors
  /\ Js.trim (add_input_of two_colors) = EmptyString
  /\ _addListItem (mkEvent OtherEvent 0) two_colors = Returned tt two_colors.
Proof.
  split; [reflexivity|]. split.
  - exact (proj1 (add_handler_ignores two_colors
                    (mkEvent (KeyboardEvent "a") 0)) eq_refl).
  - split; [reflexivity|].
    exact (proj2 (add_handler_ignores two_colors (mkEvent OtherEvent 0))
             two_colors_connected eq_refl).
Defined.

Lemma remove_handler_removes_witness :
  connected two_colors
  /\ wrappers_of two_colors !! 1 = Some (Text "green")
  /\ list_of (after (_removeListItemHandler (mkEvent OtherEvent 1) two_colors))
     = delete 1 (list_of two_colors)
  /\ dispatched (after (_removeListItemHandler (mkEvent OtherEvent 1) two_colors))
     = dispatched two_colors ++ [removeDetail "green"].
Proof.
  split; [exact two_colors_connected|]. split; [reflexivity|].
  destruct (remove_handler_removes two_colors (mkEvent OtherEvent 1) "green"
              two_colors_connected eq_refl) as (_ & H1 & H2 & _).
  split; [exact H1 | exact H2].
Defined.

Lemma move_handlers_report_the_moved_item_witness :
  connected two_colors
  /\ Forall (fun w => is_text w = true) (wrappers_of two_colors)
  /\ list_of two_colors !! 1 = Some "green"
  /\ dispatched (after (_moveUpListItemEvent (mkEvent OtherEvent 1) two_colors))
     = [moveDetail "up" "green"]
  /\ dispatched (after (_moveDownListItemEvent (mkEvent OtherEvent 1) two_colors))
     = [].
Proof.
  split; [exact two_colors_connected|]. split; [exact two_colors_texts|].
  split; [reflexivity|].
  destruct (move_handlers_report_the_moved_item two_colors
              (mkEvent OtherEvent 1) "green" two_colors_connected
              two_colors_texts eq_refl)
    as [(_ & _ & H1) (_ & _ & H2)].
  split; [exact H1 | exact H2].
Defined.

Lemma selection_is_single_witness :
  connected two_colors
  /\ target (mkEvent OtherEvent 1) < length (list_of two_colors)
  /\ selected_of (after (_liSelected (mkEvent OtherEvent 1) two_colors))
     = [false; true].
Proof.
  assert (target (mkEvent OtherEvent 1) < length (list_of two_colors)) as Hlt
    by (vm_compute; lia).
  split; [exact two_colors_connected|]. split; [exact Hlt|].
  destruct (selection_is_single two_colors (mkEvent OtherEvent 1)
              two_colors_connected Hlt) as [(_ & H & _) _].
  exact H.
Defined.

Lemma items_while_editing_witness :
  connected two_colors
  /\ _editing two_colors = false
  /\ wrappers_of two_colors !! 0 = Some (Text "red")
  /\ list_of (after (_itemEdit (mkEvent OtherEvent 0) two_colors))
     = [edit_input_html; "green"].
Proof.
  split; [exact two_colors_connected|]. split; [reflexivity|].
  split; [reflexivity|].
  destruct (items_while_editing two_colors (mkEvent OtherEvent 0) (Text "red")
              two_colors_connected eq_refl eq_refl) as (_ & _ & _ & H).
  exact H.
Defined.

Lemma editing_blocks_edits_witness :
  connected two_colors_editing
  /\ _editing two_colors_editing = true
  /\ changeItem 1 "pink" two_colors_editing = Returned tt two_colors_editing.
Proof.
  split; [exact two_colors_editing_connected|]. split; [reflexivity|].
  exact (proj2 (editing_blocks_edits two_colors_editing
                  two_colors_editing_connected eq_refl) 1%Z "pink").
Defined.


Lemma locked_stays_locked_witness :
  locked two_colors_locked
  /\ locked (after (step (Makes (EditGesture (mkEvent OtherEvent 0)))
                         two_colors_locked)).
Proof.
  assert (locked two_colors_locked) as Hl.
  { split; [by eexists|]. split; [reflexivity | by repeat constructor]. }
  split; [exact Hl|].
  exact (locked_stays_locked two_colors_locked
           (Makes (EditGesture (mkEvent OtherEvent 0))) Hl).
Defined.

Lemma addItems_during_an_edit_witness :
  connected two_colors
  /\ duplicates_disallowed two_colors
  /\ _editing two_colors = false
  /\ wrappers_of two_colors !! 0 = Some (Text "red")
  /\ list_of (after (editInterrupted (mkEvent OtherEvent 0) ["red"]
                                     (mkEvent OtherEvent 0) two_colors))
     = ["red"; "green"; "red"].
Proof.
  split; [exact two_colors_connected|]. split; [reflexivity|].
  split; [reflexivity|]. split; [reflexivity|].
  refine (proj1 (proj2 (addItems_during_an_edit two_colors
                          (mkEvent OtherEvent 0) (mkEvent OtherEvent 0)
                          (Text "red") two_colors_connected eq_refl eq_refl
                          eq_refl _ _ eq_refl eq_refl))).
  - discriminate.
  - intros [|[|j]] w' Hj Hne; [done | | discriminate Hj].
    injection Hj as <-. discriminate.
Defined.

Lemma two_taps_edit_when_close_witness :
  (500 ≤ 1000)%Z
  /\ _editing (after (twoTaps 1000 1300 (mkEvent OtherEvent 0) two_colors)) = true
  /\ _editing (after (twoTaps 1000 1500 (mkEvent OtherEvent 0) two_colors)) = false.
Proof.
  assert (500 ≤ 1000)%Z as H by lia. split; [exact H|]. split.
  - rewrite (proj2 (two_taps_edit_when_close two_colors (mkEvent OtherEvent 0)
                      1000 1300 H)).
    reflexivity.
  - rewrite (proj2 (two_taps_edit_when_close two_colors (mkEvent OtherEvent 0)
                      1000 1500 H)).
    reflexivity.
Defined.

Lemma hidden_buttons_are_the_idle_ones_witness :
  connected two_colors
  /\ target (mkEvent OtherEvent 0) < length (list_of two_colors)
  /\ toolbarVisibilities (length (list_of two_colors))
     = [("hidden", "visible"); ("visible", "hidden")]
  /\ length (toolbarVisibilities (length (list_of two_colors)))
     = length (list_of two_colors).
Proof.
  assert (target (mkEvent OtherEvent 0) < length (list_of two_colors)) as Hlt
    by (vm_compute; lia).
  split; [exact two_colors_connected|]. split; [exact Hlt|].
  split; [reflexivity|].
  exact (proj1 (hidden_buttons_are_the_idle_ones two_colors
                  (mkEvent OtherEvent 0) two_colors_connected Hlt)).
Defined.
